(** * The chain manager of [src/blockchain.js]

    A shallow embedding of the [Blockchain] class: the chain array and the
    cached height are an explicit state, every method is a function from the
    state (and the clock readings it takes) to the way its promise settles and
    the state it leaves behind. *)

From Stdlib Require Import ZArith String Ascii List Lia Bool.
From stdpp Require Import base option list strings.

Local Open Scope string_scope.
Local Open Scope list_scope.
Local Open Scope Z_scope.

(** ** The JavaScript primitives the class relies on *)

Module JS.

(** A JavaScript number as this file meets them: every number the class
    computes with is an integer or [NaN].  Integers are kept exact; the
    comparisons of the class only ever set such a value against a small
    integer constant, so exact arithmetic takes the branch the double
    arithmetic takes. *)
Inductive Number : Type :=
| NaN
| Int (z : Z).

(** [a - b] *)
Definition sub (a b : Number) : Number :=
  match a, b with
  | Int x, Int y => Int (x - y)
  | _, _ => NaN
  end.

(** [a > b]: false as soon as one side is [NaN]. *)
Definition gt (a b : Number) : bool :=
  match a, b with
  | Int x, Int y => y <? x
  | _, _ => false
  end.

(** *** [Number.prototype.toString] on integers *)

Definition digit_char (d : N) : ascii := ascii_of_N (48 + d).

(** The decimal digits of [n], least significant first. *)
Fixpoint digits_le (fuel : nat) (n : N) : list N :=
  match fuel with
  | O => []
  | S fuel' =>
      if (n <? 10)%N then [n]
      else (n mod 10)%N :: digits_le fuel' (n / 10)%N
  end.

Definition digits (n : N) : list N := digits_le (S (N.to_nat (N.log2 n))) n.

Definition string_of_digits_le (ds : list N) : string :=
  string_of_list_ascii (map digit_char (rev ds)).

Definition toString (z : Z) : string :=
  match z with
  | Z0 => "0"
  | Zpos p => string_of_digits_le (digits (Npos p))
  | Zneg p => String "-" (string_of_digits_le (digits (Npos p)))
  end.

(** *** [s.slice(0, -3)]: [s] without its last three characters *)
Definition slice_0_m3 (s : string) : string :=
  string_of_list_ascii
    (firstn (length (list_ascii_of_string s) - 3)%nat (list_ascii_of_string s)).

(** *** [s.split(":")] *)
Fixpoint split_go (sep : ascii) (cur : list ascii) (s : string) : list string :=
  match s with
  | EmptyString => [string_of_list_ascii (rev cur)]
  | String c s' =>
      if Ascii.eqb c sep
      then string_of_list_ascii (rev cur) :: split_go sep [] s'
      else split_go sep (c :: cur) s'
  end.

Definition split (sep : ascii) (s : string) : list string := split_go sep [] s.

(** *** [parseInt(x)] with no radix

    [parseInt] first turns its argument into a string; [undefined] (an
    index past the end of an array) becomes ["undefined"], which holds no
    digit.  Leading white space is dropped, one sign is read, a [0x] or
    [0X] prefix switches to base sixteen, and the longest prefix of digits
    is the value; no digit at all gives [NaN]. *)

Definition is_white (c : ascii) : bool :=
  let n := N_of_ascii c in
  ((9 <=? n) && (n <=? 13) || (n =? 32) || (n =? 160))%N.

Fixpoint trim_start (s : string) : string :=
  match s with
  | String c s' => if is_white c then trim_start s' else s
  | EmptyString => s
  end.

Definition digit_value (radix : N) (c : ascii) : option N :=
  let n := N_of_ascii c in
  let v :=
    if ((48 <=? n) && (n <=? 57))%N then Some (n - 48)%N
    else if ((97 <=? n) && (n <=? 122))%N then Some (n - 87)%N
    else if ((65 <=? n) && (n <=? 90))%N then Some (n - 55)%N
    else None in
  match v with
  | Some d => if (d <? radix)%N then Some d else None
  | None => None
  end.

(** Reads the longest prefix of digits; [acc] is [None] until a digit has
    been read. *)
Fixpoint read_digits (radix : N) (acc : option N) (s : string) : option N :=
  match s with
  | EmptyString => acc
  | String c s' =>
      match digit_value radix c with
      | Some d =>
          read_digits radix
            (Some (match acc with Some a => a * radix + d | None => d end)%N) s'
      | None => acc
      end
  end.

(** One leading sign: whether it is a minus, and what follows it. *)
Definition strip_sign (s : string) : bool * string :=
  match s with
  | String c s' =>
      if Ascii.eqb c "-" then (true, s')
      else if Ascii.eqb c "+" then (false, s')
      else (false, s)
  | EmptyString => (false, s)
  end.

(** The radix, sixteen after a [0x] or [0X] that is dropped, ten otherwise. *)
Definition strip_prefix (s : string) : N * string :=
  match s with
  | String c1 (String c2 s') =>
      if Ascii.eqb c1 "0" && (Ascii.eqb c2 "x" || Ascii.eqb c2 "X")
      then (16%N, s') else (10%N, s)
  | _ => (10%N, s)
  end.

Definition parseInt_string (input : string) : Number :=
  let '(negative, s) := strip_sign (trim_start input) in
  let '(radix, s) := strip_prefix s in
  match read_digits radix None s with
  | Some n => Int (if negative then - Z.of_N n else Z.of_N n)
  | None => NaN
  end.

Definition parseInt (x : option string) : Number :=
  match x with
  | Some s => parseInt_string s
  | None => parseInt_string "undefined"
  end.

End JS.

(** ** [JSON.parse]

    The text is checked against the JSON grammar and turned into its parse
    tree.  A number is kept as its literal and a string as the text between
    its quotes: the tree fixes the value [JSON.parse] returns, the step from
    the literal to the double and from the escapes to the characters is not
    taken here.  [None] stands for the [SyntaxError] that [JSON.parse]
    throws. *)

Module JSON.

#[local] Set Warnings "-register-all".

Inductive value : Type :=
| Null
| Bool (b : bool)
| Num (literal : string)
| Str (raw : string)
| Arr (elements : list value)
| Obj (members : list (string * value)).

(** The double quote and the backslash. *)
Definition dquote : ascii := ascii_of_N 34.
Definition backslash : ascii := ascii_of_N 92.

Definition is_ws (c : ascii) : bool :=
  let n := N_of_ascii c in ((n =? 32) || (n =? 9) || (n =? 10) || (n =? 13))%N.

Fixpoint skip_ws (s : string) : string :=
  match s with
  | String c s' => if is_ws c then skip_ws s' else s
  | EmptyString => s
  end.

Definition is_digit (c : ascii) : bool :=
  let n := N_of_ascii c in ((48 <=? n) && (n <=? 57))%N.

Definition is_hex (c : ascii) : bool :=
  let n := N_of_ascii c in
  (((48 <=? n) && (n <=? 57)) || ((97 <=? n) && (n <=? 102))
   || ((65 <=? n) && (n <=? 70)))%N.

(** [expect lit s]: [s] without its prefix [lit]. *)
Fixpoint expect (lit s : string) : option string :=
  match lit, s with
  | EmptyString, _ => Some s
  | String a lit', String b s' => if Ascii.eqb a b then expect lit' s' else None
  | String _ _, EmptyString => None
  end.

(** The characters of a string literal after its opening quote, up to the
    closing one; [acc] holds them in reverse. *)
Fixpoint scan_string (acc : list ascii) (s : string) : option (string * string) :=
  match s with
  | EmptyString => None
  | String c s' =>
      if Ascii.eqb c dquote then Some (string_of_list_ascii (rev acc), s')
      else if (N_of_ascii c <? 32)%N then None
      else if Ascii.eqb c backslash then
        match s' with
        | String "u" (String h1 (String h2 (String h3 (String h4 s'')))) =>
            if is_hex h1 && is_hex h2 && is_hex h3 && is_hex h4
            then scan_string (h4 :: h3 :: h2 :: h1 :: "u"%char :: c :: acc) s''
            else None
        | String e s'' =>
            if existsb (Ascii.eqb e)
                 [dquote; backslash; "/"; "b"; "f"; "n"; "r"; "t"]%char
            then scan_string (e :: c :: acc) s''
            else None
        | EmptyString => None
        end
      else scan_string (c :: acc) s'
  end.

(** The longest prefix of decimal digits, with what follows it. *)
Fixpoint scan_digits (acc : list ascii) (s : string) : list ascii * string :=
  match s with
  | String c s' => if is_digit c then scan_digits (c :: acc) s' else (acc, s)
  | EmptyString => (acc, s)
  end.

(** A number literal: an optional minus sign; then a single zero, or a
    digit other than zero followed by any digits; then optionally a dot
    and at least one digit; then optionally [e] or [E], an optional sign
    and at least one digit.  The literal is gathered in reverse. *)
Definition scan_number (s : string) : option (string * string) :=
  let '(acc, s) :=
    match s with
    | String "-" s' => (["-"%char], s')
    | _ => ([], s)
    end in
  let int_part :=
    match s with
    | String "0" s' => Some ("0"%char :: acc, s')
    | String c _ => if is_digit c then Some (scan_digits acc s) else None
    | EmptyString => None
    end in
  match int_part with
  | None => None
  | Some (acc, s) =>
      let frac_part :=
        match s with
        | String "." s' =>
            match s' with
            | String c _ =>
                if is_digit c then Some (scan_digits ("."%char :: acc) s') else None
            | EmptyString => None
            end
        | _ => Some (acc, s)
        end in
      match frac_part with
      | None => None
      | Some (acc, s) =>
          let exponent (e : ascii) (s' : string) :=
            let '(acc, s') :=
              match s' with
              | String "+" s'' => ("+"%char :: e :: acc, s'')
              | String "-" s'' => ("-"%char :: e :: acc, s'')
              | _ => (e :: acc, s')
              end in
            match s' with
            | String c _ => if is_digit c then Some (scan_digits acc s') else None
            | EmptyString => None
            end in
          let exp_part :=
            match s with
            | String "e" s' => exponent "e"%char s'
            | String "E" s' => exponent "E"%char s'
            | _ => Some (acc, s)
            end in
          match exp_part with
          | None => None
          | Some (acc, s) => Some (string_of_list_ascii (rev acc), s)
          end
      end
  end.

Fixpoint parse_value (fuel : nat) (s : string) : option (value * string) :=
  match fuel with
  | O => None
  | S fuel' =>
      match skip_ws s with
      | EmptyString => None
      | String c r as s1 =>
          if Ascii.eqb c "n" then r' ← expect "ull" r; Some (Null, r')
          else if Ascii.eqb c "t" then r' ← expect "rue" r; Some (Bool true, r')
          else if Ascii.eqb c "f" then r' ← expect "alse" r; Some (Bool false, r')
          else if Ascii.eqb c dquote then
            '(raw, r') ← scan_string [] r; Some (Str raw, r')
          else if Ascii.eqb c "[" then
            match skip_ws r with
            | String "]" r' => Some (Arr [], r')
            | _ => '(vs, r') ← parse_elements fuel' r []; Some (Arr vs, r')
            end
          else if Ascii.eqb c "{" then
            match skip_ws r with
            | String "}" r' => Some (Obj [], r')
            | _ => '(ms, r') ← parse_members fuel' r []; Some (Obj ms, r')
            end
          else '(lit, r') ← scan_number s1; Some (Num lit, r')
      end
  end
with parse_elements (fuel : nat) (s : string) (acc : list value)
  : option (list value * string) :=
  match fuel with
  | O => None
  | S fuel' =>
      '(v, r) ← parse_value fuel' s;
      match skip_ws r with
      | String "," r' => parse_elements fuel' r' (v :: acc)
      | String "]" r' => Some (rev (v :: acc), r')
      | _ => None
      end
  end
with parse_members (fuel : nat) (s : string) (acc : list (string * value))
  : option (list (string * value) * string) :=
  match fuel with
  | O => None
  | S fuel' =>
      match skip_ws s with
      | String c r =>
          if Ascii.eqb c dquote then
            '(key, r) ← scan_string [] r;
            match skip_ws r with
            | String ":" r =>
                '(v, r) ← parse_value fuel' r;
                match skip_ws r with
                | String "," r' => parse_members fuel' r' ((key, v) :: acc)
                | String "}" r' => Some (rev ((key, v) :: acc), r')
                | _ => None
                end
            | _ => None
            end
          else None
      | EmptyString => None
      end
  end.

(** [JSON.parse(text)]: one value, then nothing but white space. *)
Definition parse (text : string) : option value :=
  '(v, r) ← parse_value (2 * String.length text + 2) text;
  match skip_ws r with
  | EmptyString => Some v
  | String _ _ => None
  end.

End JSON.

(** ** Promises *)

(** What a promise is rejected with: [new Error(message)], or one of the
    errors the language itself throws. *)
Inductive JsError : Type :=
| Error (message : string)
| TypeError
| SyntaxError.

(** How the promise a method returns settles.  [Pending] is the promise
    whose executor stopped on an exception before calling [resolve] or
    [reject]: it never settles. *)
Inductive Promise (A : Type) : Type :=
| Resolved (value : A)
| Rejected (reason : JsError)
| Pending.

Arguments Resolved {A} value.
Arguments Rejected {A} reason.
Arguments Pending {A}.

(** ** Blocks *)

Module BlockClass.

(** The [data] a block is built from: the object [{ data: ... }] of the
    genesis block, or the object [{ address, message, star }] of a claim. *)
Inductive Body : Type :=
| GenesisData (data : string)
| StarData (address message star : string).

(** A block; [hash] and [previousBlockHash] hold [null] ([None]) or a
    string, [time] the seconds as a string, as [_addBlock] writes them. *)
Record Block : Type := {
  hash : option string;
  height : Z;
  body : Body;
  time : string;
  previousBlockHash : option string;
}.

(** Modelled from the spec: the constructor of [block.js], which is not
    among the sources.  A new block holds only its body; its hash is
    [null], and the fields [_addBlock] assigns hold placeholders. *)
Definition new (data : Body) : Block :=
  {| hash := None; height := 0; body := data; time := "0";
     previousBlockHash := None |}.

(** The address of a body, [undefined] ([None]) for a body without one. *)
Definition address_of (b : Body) : option string :=
  match b with
  | StarData address _ _ => Some address
  | GenesisData _ => None
  end.

End BlockClass.

Import BlockClass (Block, Body, GenesisData, StarData).

(** The collaborators of the class that live outside this file. *)

(** [SHA256(text).toString()] of [crypto-js], and [JSON.stringify] on a
    block, whose output follows the order in which [block.js] creates the
    fields. *)
Class Digest : Type := {
  SHA256 : string -> string;
  JSON_stringify : Block -> string;
}.

(** [bitcoinMessage.verify(message, address, signature)]. *)
Class SignatureVerifier : Type := {
  verify : string -> string -> string -> bool;
}.

(** [block.validate()] of [block.js]: whether the block passes its own
    check, taken as a function of the block. *)
Class BlockValidator : Type := {
  validate : Block -> bool;
}.

(** ** The chain manager *)

(** The fields of a [Blockchain] object. *)
Record Blockchain : Type := {
  chain : list Block;
  height : Z;
}.

(** [new Date().getTime().toString().slice(0, -3)], the clock showing [now]
    milliseconds. *)
Definition timestamp (now : Z) : string := JS.slice_0_m3 (JS.toString now).

(** [array[i]] for a number [i] that is an integer. *)
Definition index {A} (l : list A) (i : Z) : option A :=
  if i <? 0 then None else l !! Z.to_nat i.

Definition getChainHeight (self : Blockchain) : Promise Z * Blockchain :=
  (Resolved (height self), self).

Section Append.
Context `{Digest}.

(** [_addBlock(block)], the clock showing [now].  The block is a fresh
    object, as every caller in the class passes one.  Reading [hash] of a
    missing previous block throws, the [catch] rejects, and nothing has
    been written by then. *)
Definition _addBlock (block : Block) (now : Z) (self : Blockchain)
  : Promise Block * Blockchain :=
  let previous : option (option string) :=
    if height self =? -1 then Some None
    else BlockClass.hash <$> index (chain self) (height self) in
  match previous with
  | None => (Rejected TypeError, self)
  | Some previousBlockHash =>
      let block :=
        {| BlockClass.hash := BlockClass.hash block;
           BlockClass.height := height self + 1;
           BlockClass.body := BlockClass.body block;
           BlockClass.time := timestamp now;
           BlockClass.previousBlockHash := previousBlockHash |} in
      let block :=
        {| BlockClass.hash := Some (SHA256 (JSON_stringify block));
           BlockClass.height := BlockClass.height block;
           BlockClass.body := BlockClass.body block;
           BlockClass.time := BlockClass.time block;
           BlockClass.previousBlockHash := BlockClass.previousBlockHash block |} in
      (Resolved block,
       {| chain := chain self ++ [block]; height := BlockClass.height block |})
  end.

(** [initializeChain()]: an async function, so a rejected [_addBlock]
    rejects it. *)
Definition initializeChain (now : Z) (self : Blockchain)
  : Promise unit * Blockchain :=
  if height self =? -1 then
    match _addBlock (BlockClass.new (GenesisData "Genesis Block")) now self with
    | (Resolved _, self') => (Resolved tt, self')
    | (Rejected e, self') => (Rejected e, self')
    | (Pending, self') => (Pending, self')
    end
  else (Resolved tt, self).

(** [new Blockchain()]: [_addBlock] runs to its end inside the call of
    [initializeChain], so the object comes back with its genesis block. *)
Definition constructor (now : Z) : Blockchain :=
  snd (initializeChain now {| chain := []; height := -1 |}).

End Append.

Definition requestMessageOwnershipVerification (address : string) (now : Z)
  : Promise string :=
  Resolved (address +:+ ":" +:+ timestamp now +:+ ":starRegistry").

(** The messages of the errors the class rejects with. *)
Definition ChallengeExpired : JsError := Error "Time elapsed is greater than 5 minutes.".
Definition InvalidSignature : JsError := Error "Message verification failed.".
Definition NotFound : JsError := Error "Block not found for the given hash.".

(** [parseInt(message.split(":")[1])] *)
Definition messageTime (message : string) : JS.Number :=
  JS.parseInt (JS.split ":" message !! 1%nat).

(** [parseInt(new Date().getTime().toString().slice(0, -3))] *)
Definition currentTime (now : Z) : JS.Number :=
  JS.parseInt (Some (timestamp now)).

Definition fiveMinutesInSeconds : JS.Number := JS.Int (5 * 60).

Section Submit.
Context `{Digest} `{SignatureVerifier}.

(** Steps 4 to 6 of [submitStar], what the method does once the check of
    the elapsed time has let the call through.  The executor is an async
    function: were the awaited [_addBlock] rejected, neither [resolve] nor
    [reject] would be called. *)
Definition verify_and_append (address message signature star : string)
    (now' : Z) (self : Blockchain) : Promise Block * Blockchain :=
  let isVerified := verify message address signature in
  if negb isVerified then (Rejected InvalidSignature, self)
  else
    let data := StarData address message star in
    let newBlock := BlockClass.new data in
    match _addBlock newBlock now' self with
    | (Resolved newBlock, self') => (Resolved newBlock, self')
    | (_, self') => (Pending, self')
    end.

(** [submitStar(address, message, signature, star)]; the clock shows [now]
    when the method reads it and [now'] when [_addBlock] does. *)
Definition submitStar (address message signature star : string)
    (now now' : Z) (self : Blockchain) : Promise Block * Blockchain :=
  let timeElapsed := JS.sub (currentTime now) (messageTime message) in
  if JS.gt timeElapsed fiveMinutesInSeconds then (Rejected ChallengeExpired, self)
  else verify_and_append address message signature star now' self.

End Submit.

Definition getBlockByHash (hash : string) (self : Blockchain)
  : Promise Block * Blockchain :=
  match snd <$> list_find (λ block, BlockClass.hash block = Some hash) (chain self) with
  | Some block => (Resolved block, self)
  | None => (Rejected NotFound, self)
  end.

(** [getBlockByHeight(height)] resolves with a block or with [null]. *)
Definition getBlockByHeight (height : Z) (self : Blockchain)
  : Promise (option Block) * Blockchain :=
  match filter (λ p, BlockClass.height p = height) (chain self) !! 0%nat with
  | Some block => (Resolved (Some block), self)
  | None => (Resolved None, self)
  end.

(** The loop of [getStarsByWalletAddress]: [inl] when [JSON.parse] throws. *)
Fixpoint stars_loop (address : string) (blocks : list Block)
    (stars : list JSON.value) : JsError + list JSON.value :=
  match blocks with
  | [] => inr stars
  | block :: blocks' =>
      match BlockClass.body block with
      | StarData a _ star =>
          if String.eqb a address then
            match JSON.parse star with
            | Some decoded => stars_loop address blocks' (stars ++ [decoded])
            | None => inl SyntaxError
            end
          else stars_loop address blocks' stars
      | GenesisData _ => stars_loop address blocks' stars
      end
  end.

Definition getStarsByWalletAddress (address : string) (self : Blockchain)
  : Promise (list JSON.value) * Blockchain :=
  match stars_loop address (chain self) [] with
  | inr stars => (Resolved stars, self)
  | inl error => (Rejected error, self)
  end.

Definition invalid_block_entry (i : nat) : string :=
  "Block at height " +:+ JS.toString (Z.of_nat i) +:+ " is invalid.".

Definition invalid_link_entry (i : nat) : string :=
  "Block at height " +:+ JS.toString (Z.of_nat i) +:+ " has an invalid previousBlockHash.".

Section Validate.
Context `{BlockValidator}.

(** The [for] loop of [validateChain], [steps] iterations from index [i]
    on; the loop ends where [i] leaves the array. *)
Fixpoint validate_loop (chain : list Block) (steps : nat) (i : nat)
    (errorLog : list string) : list string :=
  match steps with
  | O => errorLog
  | S steps' =>
      match chain !! i with
      | None => errorLog
      | Some block =>
          let errorLog :=
            if negb (validate block)
            then (errorLog ++ [invalid_block_entry i])%list else errorLog in
          let errorLog :=
            if bool_decide (0 < i)%nat
               && negb (bool_decide (Some (BlockClass.previousBlockHash block)
                                     = BlockClass.hash <$> chain !! (i - 1)%nat))
            then (errorLog ++ [invalid_link_entry i])%list else errorLog in
          validate_loop chain steps' (S i) errorLog
      end
  end.

Definition validateChain (self : Blockchain) : Promise (list string) * Blockchain :=
  (Resolved (validate_loop (chain self) (length (chain self)) 0 []), self).

End Validate.

(** ** The properties the chain is to keep *)

(** The linkage of a chain: the first block has no previous hash and height
    0, every later block names the hash of the block before it and carries
    its index as height. *)
Definition linked (c : list Block) : Prop :=
  (∀ b, c !! 0%nat = Some b →
        BlockClass.previousBlockHash b = None ∧ BlockClass.height b = 0)
  ∧ (∀ (i : nat) b p, (0 < i)%nat → c !! i = Some b → c !! (i - 1)%nat = Some p →
        BlockClass.previousBlockHash b = BlockClass.hash p
        ∧ BlockClass.height b = Z.of_nat i).

Section Reachable.
Context `{Digest}.

(** The digest of a block's fields other than [hash]: the block is
    serialised with [hash] still [null]. *)
Definition block_digest (body : Body) (height : Z) (time : string)
    (previousBlockHash : option string) : string :=
  SHA256 (JSON_stringify
    {| BlockClass.hash := None; BlockClass.height := height;
       BlockClass.body := body; BlockClass.time := time;
       BlockClass.previousBlockHash := previousBlockHash |}).

(** The states a [Blockchain] object goes through: it starts empty, and
    only [_addBlock], called on a new block, writes to it. *)
Inductive reachable : Blockchain → Prop :=
| reachable_empty : reachable {| chain := []; height := -1 |}
| reachable_addBlock self data now r self' :
    reachable self →
    _addBlock (BlockClass.new data) now self = (r, self') →
    reachable self'.

(** [after_appends N self]: [self] is a new [Blockchain], genesis block
    included, after [N] more calls of [_addBlock] that resolved. *)
Inductive after_appends : nat → Blockchain → Prop :=
| after_genesis now : after_appends 0 (constructor now)
| after_append N self data now block self' :
    after_appends N self →
    _addBlock (BlockClass.new data) now self = (Resolved block, self') →
    after_appends (S N) self'.

(** A block whose stored hash is the digest of its other fields. *)
Definition hashed (b : Block) : Prop :=
  BlockClass.hash b =
  Some (block_digest (BlockClass.body b) (BlockClass.height b)
          (BlockClass.time b) (BlockClass.previousBlockHash b)).

(** Modelled from the spec: [validate()] of [block.js], which is not among
    the sources, recomputes the hash of the block over its other fields and
    compares it with the stored one. *)
Definition recomputing_validator : BlockValidator :=
  {| validate b :=
       bool_decide (BlockClass.hash b =
                    Some (block_digest (BlockClass.body b) (BlockClass.height b)
                            (BlockClass.time b) (BlockClass.previousBlockHash b))) |}.

End Reachable.

Section Problems.
Context `{BlockValidator}.

(** What section 4.5 of the specification asks [validateChain] to report
    for the block at index [i]. *)
Definition block_invalid (c : list Block) (i : nat) : Prop :=
  ∃ b, c !! i = Some b ∧ validate b = false.

Definition link_invalid (c : list Block) (i : nat) : Prop :=
  (0 < i)%nat ∧ ∃ b p, c !! i = Some b ∧ c !! (i - 1)%nat = Some p
                       ∧ BlockClass.previousBlockHash b ≠ BlockClass.hash p.

Definition problems_at (c : list Block) (i : nat) : list string :=
  match c !! i with
  | None => []
  | Some b =>
      (if validate b then [] else [invalid_block_entry i])
      ++ (match i, c !! (i - 1)%nat with
          | S _, Some p =>
              if decide (BlockClass.previousBlockHash b = BlockClass.hash p)
              then [] else [invalid_link_entry i]
          | _, _ => []
          end)
  end.

Definition problems (c : list Block) : list string :=
  flat_map (problems_at c) (seq 0 (length c)).

End Problems.

(** The cached height is the last index of the chain. *)
Definition height_cached (self : Blockchain) : Prop :=
  height self = Z.of_nat (length (chain self)) - 1.

(** The star of a body, [undefined] for a body without one. *)
Definition star_of (b : Body) : option string :=
  match b with
  | StarData _ _ star => Some star
  | GenesisData _ => None
  end.

(** The stars, still encoded, of the blocks whose body carries [address],
    in the order of the chain. *)
Definition stars_of (address : string) (c : list Block) : list string :=
  omap (λ b, star_of (BlockClass.body b))
       (filter (λ b, BlockClass.address_of (BlockClass.body b) = Some address) c).

(** ** Reading decimal digits back *)

(** The number a list of digits, least significant first, stands for. *)
Fixpoint value_le (ds : list N) : N :=
  match ds with
  | [] => 0
  | d :: ds' => d + 10 * value_le ds'
  end%N.

(** One step of [JS.read_digits]. *)
Definition read_step (radix : N) (acc : option N) (d : N) : option N :=
  Some (match acc with Some a => a * radix + d | None => d end)%N.

(** Reading an entry of the error log back: the text after ["Block at
    height "], the height it starts with, and what follows the height. *)
Fixpoint string_drop (n : nat) (s : string) : string :=
  match n, s with
  | S n', String _ s' => string_drop n' s'
  | _, _ => s
  end.

Fixpoint skip_digits (s : string) : string :=
  match s with
  | String c s' =>
      match JS.digit_value 10 c with
      | Some _ => skip_digits s'
      | None => s
      end
  | EmptyString => s
  end.

Definition entry_height (entry : string) : option N :=
  JS.read_digits 10 None (string_drop 16 entry).

Definition entry_rest (entry : string) : string :=
  skip_digits (string_drop 16 entry).

(** Whether the character [c] occurs in [s]. *)
Fixpoint contains_char (c : ascii) (s : string) : bool :=
  match s with
  | EmptyString => false
  | String c' s' => Ascii.eqb c' c || contains_char c s'
  end.

(** ** Sample collaborators and objects, to run the definitions on *)

Module Demo.

Definition quoted (s : string) : string :=
  String JSON.dquote (s +:+ String JSON.dquote EmptyString).

Definition nullable (o : option string) : string :=
  match o with Some s => quoted s | None => "null" end.

Definition stringify_body (b : Body) : string :=
  match b with
  | GenesisData data => "{" +:+ quoted "data" +:+ ":" +:+ quoted data +:+ "}"
  | StarData address message star =>
      "{" +:+ quoted "address" +:+ ":" +:+ quoted address
      +:+ "," +:+ quoted "message" +:+ ":" +:+ quoted message
      +:+ "," +:+ quoted "star" +:+ ":" +:+ quoted star +:+ "}"
  end.

Definition stringify (b : Block) : string :=
  "{" +:+ quoted "hash" +:+ ":" +:+ nullable (BlockClass.hash b)
  +:+ "," +:+ quoted "height" +:+ ":" +:+ JS.toString (BlockClass.height b)
  +:+ "," +:+ quoted "body" +:+ ":" +:+ stringify_body (BlockClass.body b)
  +:+ "," +:+ quoted "time" +:+ ":" +:+ quoted (BlockClass.time b)
  +:+ "," +:+ quoted "previousBlockHash" +:+ ":"
  +:+ nullable (BlockClass.previousBlockHash b) +:+ "}".

(** A stand-in for the digest: a 32-bit rolling checksum, in decimal. *)
Fixpoint checksum (acc : Z) (text : string) : Z :=
  match text with
  | EmptyString => acc
  | String c text' =>
      checksum ((acc * 31 + Z.of_N (N_of_ascii c)) mod 2 ^ 32) text'
  end.

Definition digest : Digest :=
  {| SHA256 := λ text, "#" +:+ JS.toString (checksum 7 text);
     JSON_stringify := stringify |}.

(** A stand-in for the verifier: the signature of [message] under
    [address] is the text ["sig/address/message"]. *)
Definition verifier : SignatureVerifier :=
  {| verify := λ message address signature,
       String.eqb signature ("sig/" +:+ address +:+ "/" +:+ message) |}.

Definition validator : BlockValidator := @recomputing_validator digest.

(** The clock at construction, in milliseconds. *)
Definition t0 : Z := 1700000000123.

Definition fresh : Blockchain := @constructor digest t0.

Definition messageA : string := "A:1700000000:starRegistry".

Definition starA : string :=
  "{" +:+ quoted "dec" +:+ ":" +:+ quoted "68 52 56.9" +:+ ","
  +:+ quoted "ra" +:+ ":" +:+ quoted "16h 29m 1.0s" +:+ "}".

(** The object after [A] has claimed [starA], 100 seconds after asking. *)
Definition withA : Blockchain :=
  snd (@submitStar digest verifier "A" messageA ("sig/A/" +:+ messageA) starA
         1700000100456 1700000100457 fresh).

Definition messageB : string := "B:1700000200:starRegistry".

(** ... and after [B] has claimed a star whose payload is no JSON text. *)
Definition withAB : Blockchain :=
  snd (@submitStar digest verifier "B" messageB ("sig/B/" +:+ messageB) "Vega"
         1700000250000 1700000250001 withA).

(** The blocks of these objects, written out. *)
Definition genesis : Block :=
  {| BlockClass.hash := Some "#2323711404"; BlockClass.height := 0;
     BlockClass.body := GenesisData "Genesis Block";
     BlockClass.time := "1700000000"; BlockClass.previousBlockHash := None |}.

Definition blockA : Block :=
  {| BlockClass.hash := Some "#1359336639"; BlockClass.height := 1;
     BlockClass.body := StarData "A" messageA starA;
     BlockClass.time := "1700000100";
     BlockClass.previousBlockHash := Some "#2323711404" |}.

Definition blockB : Block :=
  {| BlockClass.hash := Some "#3039507665"; BlockClass.height := 2;
     BlockClass.body := StarData "B" messageB "Vega";
     BlockClass.time := "1700000250";
     BlockClass.previousBlockHash := Some "#1359336639" |}.

(** The block that a claim under the message ["hello"] leaves. *)
Definition blockHello : Block :=
  {| BlockClass.hash := Some "#3080846903"; BlockClass.height := 1;
     BlockClass.body := StarData "A" "hello" starA;
     BlockClass.time := "1700000100";
     BlockClass.previousBlockHash := Some "#2323711404" |}.

(** [withAB] once somebody has written to its second block from outside:
    another body, and another previous hash. *)
Definition tampered : Blockchain :=
  {| chain :=
       [genesis;
        {| BlockClass.hash := Some "#1359336639"; BlockClass.height := 1;
           BlockClass.body := StarData "M" messageA starA;
           BlockClass.time := "1700000100";
           BlockClass.previousBlockHash := Some "#0" |};
        blockB];
     height := 2 |}.

End Demo.

(** * Properties *)

(** ** The primitives on sample inputs *)

Example toString_ex : JS.toString 1700000000123 = "1700000000123".
Proof. reflexivity. Qed.
Example slice_ex : JS.slice_0_m3 (JS.toString 1700000000123) = "1700000000".
Proof. reflexivity. Qed.
Example split_ex : JS.split ":" "addr:1700000000:starRegistry" = ["addr"; "1700000000"; "starRegistry"].
Proof. reflexivity. Qed.
Example parse_ex : JS.parseInt (JS.split ":" "addr:1700000000:starRegistry" !! 1%nat) = JS.Int 1700000000.
Proof. reflexivity. Qed.
Example parse_ex2 : JS.parseInt (JS.split ":" "addr" !! 1%nat) = JS.NaN.
Proof. reflexivity. Qed.
Example parse_ex3 : JS.parseInt (Some " -0x1fz") = JS.Int (-31).
Proof. reflexivity. Qed.
Example parse_ex5 : JS.parseInt (Some "0x") = JS.NaN.
Proof. reflexivity. Qed.
Example parse_ex6 : JS.parseInt (Some "+12abc") = JS.Int 12.
Proof. reflexivity. Qed.
Example parse_ex4 : JS.parseInt (Some (JS.slice_0_m3 (JS.toString 999))) = JS.NaN.
Proof. reflexivity. Qed.
Example json1 : JSON.parse ("{" +:+ Demo.quoted "dec" +:+ ": " +:+ Demo.quoted "68 52" +:+ ", " +:+ Demo.quoted "ra" +:+ " : [1, -2.5e3, true, null], " +:+ Demo.quoted "o" +:+ ":{}}")
  = Some (JSON.Obj [("dec", JSON.Str "68 52"); ("ra", JSON.Arr [JSON.Num "1"; JSON.Num "-2.5e3"; JSON.Bool true; JSON.Null]); ("o", JSON.Obj [])]).
Proof. reflexivity. Qed.
Example json2 : JSON.parse "oops" = None.
Proof. reflexivity. Qed.
Example json3 : JSON.parse EmptyString = None.
Proof. reflexivity. Qed.
Example json4 : JSON.parse " 01" = None.
Proof. reflexivity. Qed.
Example json5 : JSON.parse " [1,]" = None.
Proof. reflexivity. Qed.
Example json6 : JSON.parse (" [[[1 ] , " +:+ Demo.quoted "a\né" +:+ "]] ") = Some (JSON.Arr [JSON.Arr [JSON.Arr [JSON.Num "1"]; JSON.Str "a\né"]]).
Proof. reflexivity. Qed.
Example json7 : JSON.parse "1 2" = None.
Proof. reflexivity. Qed.
Example json8 : JSON.parse "-" = None.
Proof. reflexivity. Qed.
Example json9 : JSON.parse "1.e3" = None.
Proof. reflexivity. Qed.
Example json10 : JSON.parse "[object Object]" = None.
Proof. reflexivity. Qed.
Example json11 : JSON.parse (Demo.quoted "a\x") = None.
Proof. reflexivity. Qed.
Example json12 : JSON.parse "-0.5E+10" = Some (JSON.Num "-0.5E+10").
Proof. reflexivity. Qed.
Example json13 : JSON.parse "{}" = Some (JSON.Obj []).
Proof. reflexivity. Qed.



(** ** Decimal digits, written and read back *)

Section DigitFacts.
Local Open Scope N_scope.

Lemma digits_le_value fuel n :
  n < 2 ^ N.of_nat fuel → value_le (JS.digits_le fuel n) = n.
Proof.
  revert n. induction fuel as [|fuel IH]; intros n Hn.
  - simpl in *. lia.
  - cbn [JS.digits_le]. destruct (N.ltb_spec n 10) as [Hlt|Hge].
    + simpl. lia.
    + cbn [value_le]. rewrite IH.
      * pose proof (N.div_mod n 10). lia.
      * rewrite Nat2N.inj_succ, N.pow_succ_r' in Hn.
        apply N.Div0.div_lt_upper_bound. lia.
Qed.

Lemma digits_le_digit fuel n : Forall (λ d, d < 10) (JS.digits_le fuel n).
Proof.
  revert n. induction fuel as [|fuel IH]; intros n; cbn [JS.digits_le].
  - constructor.
  - destruct (N.ltb_spec n 10) as [Hlt|Hge].
    + by repeat constructor.
    + constructor; [|apply IH]. apply N.mod_lt. lia.
Qed.

Lemma digits_le_nonempty fuel n : JS.digits_le (S fuel) n ≠ [].
Proof. cbn [JS.digits_le]. by destruct (n <? 10). Qed.

Lemma digits_le_skip3 fuel n :
  1000 ≤ n →
  skipn 3 (JS.digits_le (S (S (S fuel))) n) = JS.digits_le fuel (n / 1000).
Proof.
  intros Hn. cbn [JS.digits_le].
  assert (100 ≤ n / 10) by (apply N.div_le_lower_bound; lia).
  assert (10 ≤ n / 10 / 10) by (apply N.div_le_lower_bound; lia).
  destruct (N.ltb_spec n 10); [lia|].
  destruct (N.ltb_spec (n / 10) 10); [lia|].
  destruct (N.ltb_spec (n / 10 / 10) 10); [lia|].
  cbn [skipn]. by rewrite !N.Div0.div_div.
Qed.

Lemma digits_value n : value_le (JS.digits n) = n.
Proof.
  unfold JS.digits. apply digits_le_value.
  rewrite Nat2N.inj_succ, N2Nat.id.
  destruct (decide (n = 0)) as [->|Hn]; [done|].
  apply N.log2_spec. lia.
Qed.


Lemma digit_char_code d : d < 10 → N_of_ascii (JS.digit_char d) = 48 + d.
Proof. intros Hd. unfold JS.digit_char. apply N_ascii_embedding. lia. Qed.

Lemma digit_value_digit_char d :
  d < 10 → JS.digit_value 10 (JS.digit_char d) = Some d.
Proof.
  intros Hd. unfold JS.digit_value. rewrite digit_char_code by done.
  destruct (N.leb_spec 48 (48 + d)); [|lia].
  destruct (N.leb_spec (48 + d) 57); [|lia]. simpl.
  replace (48 + d - 48) with d by lia.
  destruct (N.ltb_spec d 10); [done|lia].
Qed.

Lemma append_cons c (s t : string) : String c s +:+ t = String c (s +:+ t).
Proof. reflexivity. Qed.

Lemma read_digits_app ds acc t :
  Forall (λ d, d < 10) ds →
  JS.read_digits 10 acc (string_of_list_ascii (map JS.digit_char ds) +:+ t)
  = JS.read_digits 10 (fold_left (read_step 10) ds acc) t.
Proof.
  intros Hds. revert acc. induction Hds as [|d ds Hd _ IH]; intros acc.
  - reflexivity.
  - cbn [map string_of_list_ascii fold_left]. rewrite append_cons.
    cbn [JS.read_digits]. rewrite digit_value_digit_char by done. apply IH.
Qed.

Lemma read_step_rev ds :
  ds ≠ [] → fold_left (read_step 10) (rev ds) None = Some (value_le ds).
Proof.
  induction ds as [|d ds IH]; [done|]. intros _.
  cbn [rev value_le]. rewrite fold_left_app. cbn [fold_left].
  destruct ds as [|d' ds].
  - simpl. f_equal. lia.
  - rewrite IH by done. unfold read_step. f_equal. lia.
Qed.

(** Reading back the digits of a number, whatever follows them. *)
Lemma read_digits_of_digits ds t :
  ds ≠ [] → Forall (λ d, d < 10) ds →
  JS.read_digits 10 None (JS.string_of_digits_le ds +:+ t)
  = JS.read_digits 10 (Some (value_le ds)) t.
Proof.
  intros Hne Hds. unfold JS.string_of_digits_le.
  rewrite read_digits_app by (by apply Forall_rev).
  by rewrite read_step_rev.
Qed.

Lemma append_empty (s : string) : s +:+ EmptyString = s.
Proof. induction s as [|c s IH]; [done|]. by rewrite append_cons, IH. Qed.

Lemma digit_char_not c d :
  d < 10 → (N_of_ascii c < 48 ∨ 57 < N_of_ascii c) →
  Ascii.eqb (JS.digit_char d) c = false.
Proof.
  intros Hd Hc. destruct (Ascii.eqb_spec (JS.digit_char d) c) as [<-|]; [|done].
  rewrite digit_char_code in Hc by done. lia.
Qed.

Lemma digit_char_not_white d : d < 10 → JS.is_white (JS.digit_char d) = false.
Proof.
  intros Hd. unfold JS.is_white. rewrite digit_char_code by done.
  repeat match goal with
         | |- context [N.leb ?a ?b] => destruct (N.leb_spec a b)
         | |- context [N.eqb ?a ?b] => destruct (N.eqb_spec a b)
         end; simpl; try done; lia.
Qed.

(** A string of decimal digits is read by [parseInt] as it stands: it has
    no white space, sign or [0x] to drop. *)
Lemma parseInt_of_digits ds :
  ds ≠ [] → Forall (λ d, d < 10) ds →
  JS.parseInt_string (JS.string_of_digits_le ds) = JS.Int (Z.of_N (value_le ds)).
Proof.
  intros Hne Hds.
  pose proof (read_digits_of_digits ds EmptyString Hne Hds) as Hread.
  rewrite append_empty in Hread. cbn [JS.read_digits] in Hread.
  unfold JS.parseInt_string.
  assert (∃ d l, d < 10 ∧ Forall (λ d, d < 10) l
                 ∧ JS.string_of_digits_le ds
                   = String (JS.digit_char d) (string_of_list_ascii (map JS.digit_char l)))
    as (d & l & Hd & Hl & Hs).
  { unfold JS.string_of_digits_le.
    apply Forall_rev in Hds.
    destruct (rev ds) as [|d l] eqn:Hrev.
    - apply (f_equal (@rev N)) in Hrev. rewrite rev_involutive in Hrev. done.
    - inversion Hds; subst. eauto. }
  rewrite Hs in *.
  cbn [JS.trim_start]. rewrite digit_char_not_white by done.
  cbn [JS.strip_sign].
  rewrite !digit_char_not by (done || (simpl; lia)).
  assert (JS.strip_prefix (String (JS.digit_char d)
                             (string_of_list_ascii (map JS.digit_char l)))
          = (10, String (JS.digit_char d)
                   (string_of_list_ascii (map JS.digit_char l)))) as ->.
  { destruct Hl as [|d' l Hd' _]; [done|].
    cbn [map string_of_list_ascii JS.strip_prefix].
    rewrite (digit_char_not "x" d'), (digit_char_not "X" d')
      by (done || (simpl; lia)).
    by rewrite andb_false_r. }
  by rewrite Hread.
Qed.

Lemma firstn_rev_skip3 {A} (l : list A) :
  firstn (length l - 3)%nat (rev l) = rev (skipn 3 l).
Proof.
  rewrite firstn_rev.
  destruct (decide (3 ≤ length l)%nat) as [Hle|Hgt].
  - do 2 f_equal. lia.
  - rewrite !skipn_all2 by lia. done.
Qed.

(** The seconds of the clock, as digits: the digits of the milliseconds
    without the last three. *)
Lemma timestamp_digits (n : N) :
  0 < n → timestamp (Z.of_N n) = JS.string_of_digits_le (skipn 3 (JS.digits n)).
Proof.
  intros Hn. unfold timestamp, JS.slice_0_m3.
  destruct n as [|p]; [lia|]. cbn [Z.of_N JS.toString].
  unfold JS.string_of_digits_le.
  rewrite list_ascii_of_string_of_list_ascii, length_map, length_rev.
  by rewrite firstn_map, firstn_rev_skip3.
Qed.

(** From one second after the epoch on, the class reads the clock as whole
    seconds. *)
Lemma currentTime_seconds (now : Z) :
  (1000 ≤ now)%Z → currentTime now = JS.Int (now / 1000)%Z.
Proof.
  intros Hnow. unfold currentTime, JS.parseInt.
  rewrite <- (Z2N.id now) at 1 by lia.
  assert (1000 ≤ Z.to_N now) as Hn by lia.
  rewrite timestamp_digits by lia. unfold JS.digits.
  assert (9 ≤ N.log2 (Z.to_N now)) as Hlog.
  { change 9 with (N.log2 1000). by apply N.log2_le_mono. }
  destruct (N.to_nat (N.log2 (Z.to_N now))) as [|[|fuel]] eqn:Hfuel; [lia..|].
  rewrite digits_le_skip3 by done.
  destruct fuel as [|fuel]; [lia|].
  rewrite parseInt_of_digits
    by (apply digits_le_nonempty || apply digits_le_digit).
  rewrite digits_le_value.
  - f_equal. rewrite N2Z.inj_div, Z2N.id by lia. done.
  - apply N.Div0.div_lt_upper_bound.
    pose proof (N.log2_spec (Z.to_N now) ltac:(lia)) as [_ Hup].
    replace (N.succ (N.log2 (Z.to_N now))) with (N.of_nat (S fuel) + 3) in Hup by lia.
    rewrite N.pow_add_r in Hup. lia.
Qed.

End DigitFacts.

(** ** The append operation *)

Section AppendFacts.
Context `{Digest}.

Lemma index_last {A} (l : list A) :
  index l (Z.of_nat (length l) - 1) = last l.
Proof.
  unfold index. destruct l as [|a l]; [reflexivity|].
  destruct (Z.ltb_spec (Z.of_nat (length (a :: l)) - 1) 0) as [Hlt|_].
  - simpl in Hlt. lia.
  - rewrite last_lookup. f_equal. simpl. lia.
Qed.

(** On an object whose height is cached right, [_addBlock] resolves, and
    this is the block it stores. *)
Lemma addBlock_cached data now self :
  height_cached self →
  let block :=
    {| BlockClass.hash :=
         Some (block_digest data (Z.of_nat (length (chain self)))
                 (timestamp now) (last (chain self) ≫= BlockClass.hash));
       BlockClass.height := Z.of_nat (length (chain self));
       BlockClass.body := data;
       BlockClass.time := timestamp now;
       BlockClass.previousBlockHash := last (chain self) ≫= BlockClass.hash |} in
  _addBlock (BlockClass.new data) now self
  = (Resolved block,
     {| chain := chain self ++ [block];
        height := Z.of_nat (length (chain self)) |}).
Proof.
  intros Hh. unfold _addBlock. rewrite Hh.
  replace (Z.of_nat (length (chain self)) - 1 + 1)
    with (Z.of_nat (length (chain self))) by lia.
  rewrite index_last.
  destruct (chain self) as [|b0 c] eqn:Hc.
  - reflexivity.
  - destruct (Z.eqb_spec (Z.of_nat (length (b0 :: c)) - 1) (-1)) as [He|_].
    { simpl in He. lia. }
    destruct (last (b0 :: c)) as [p|] eqn:Hl.
    + reflexivity.
    + apply last_None in Hl. discriminate.
Qed.

Lemma addBlock_keeps_cached data now self r self' :
  height_cached self →
  _addBlock (BlockClass.new data) now self = (r, self') →
  height_cached self'.
Proof.
  intros Hh. rewrite (addBlock_cached data now self Hh). intros [= _ <-].
  unfold height_cached. simpl. rewrite length_app. simpl. lia.
Qed.

Lemma reachable_cached self : reachable self → height_cached self.
Proof.
  induction 1 as [|self data now r self' _ IH Hadd].
  - reflexivity.
  - eauto using addBlock_keeps_cached.
Qed.

(** Appending a block that names the last hash and the next height keeps
    the chain linked. *)
Lemma linked_snoc (c : list Block) (b : Block) :
  linked c →
  BlockClass.previousBlockHash b = last c ≫= BlockClass.hash →
  BlockClass.height b = Z.of_nat (length c) →
  linked (c ++ [b]).
Proof.
  intros [H0 HS] Hprev Hheight. split.
  - intros b' Hb'. destruct c as [|b0 c].
    + simpl in Hb'. injection Hb' as <-. rewrite Hprev, Hheight. done.
    + apply H0. exact Hb'.
  - intros i b' p Hi Hb' Hp.
    destruct (decide (i < length c)%nat) as [Hlt|Hge].
    + rewrite lookup_app_l in Hb' by lia. rewrite lookup_app_l in Hp by lia.
      eauto.
    + assert (i = length c) as ->.
      { apply lookup_lt_Some in Hb'. rewrite length_app in Hb'. simpl in Hb'. lia. }
      rewrite lookup_app_r in Hb' by lia. rewrite Nat.sub_diag in Hb'.
      injection Hb' as <-.
      rewrite lookup_app_l in Hp by lia.
      rewrite last_lookup in Hprev.
      replace (pred (length c)) with (length c - 1)%nat in Hprev by lia.
      rewrite Hp in Hprev. done.
Qed.

Lemma linked_nil : linked [].
Proof. split; intros *; rewrite ?lookup_nil; intros; simplify_eq. Qed.

Lemma reachable_linked self : reachable self → linked (chain self).
Proof.
  induction 1 as [|self data now r self' Hr IH Hadd].
  - apply linked_nil.
  - rewrite (addBlock_cached data now self (reachable_cached _ Hr)) in Hadd.
    injection Hadd as _ <-. simpl. by apply linked_snoc.
Qed.

Lemma reachable_hashed self :
  reachable self → Forall hashed (chain self).
Proof.
  induction 1 as [|self data now r self' Hr IH Hadd].
  - constructor.
  - rewrite (addBlock_cached data now self (reachable_cached _ Hr)) in Hadd.
    injection Hadd as _ <-. simpl. apply Forall_app. split; [done|].
    by repeat constructor.
Qed.


(** C2. Every block the append operation stored holds as [hash] the digest
    of the serialisation of its body, height, time and previous hash, the
    hash field being [null] in what is serialised: the block that an append
    resolves with is the last of the chain and is hashed so, and so is every
    block of the chain. *)
Theorem stored_hash_is_digest self data now block self' :
  reachable self →
  _addBlock (BlockClass.new data) now self = (Resolved block, self') →
  last (chain self') = Some block
  ∧ BlockClass.body block = data
  ∧ BlockClass.hash block
    = Some (SHA256 (JSON_stringify
        {| BlockClass.hash := None;
           BlockClass.height := BlockClass.height block;
           BlockClass.body := BlockClass.body block;
           BlockClass.time := BlockClass.time block;
           BlockClass.previousBlockHash := BlockClass.previousBlockHash block |}))
  ∧ ∀ b, b ∈ chain self' → hashed b.
Proof.
  intros Hr Hadd.
  assert (reachable self') as Hr' by (by econstructor).
  rewrite (addBlock_cached data now self (reachable_cached _ Hr)) in Hadd.
  injection Hadd as <- <-. simpl. split_and!.
  - by rewrite last_snoc.
  - done.
  - done.
  - intros b Hb. apply reachable_hashed in Hr'. simpl in Hr'.
    rewrite Forall_forall in Hr'. by apply Hr'.
Qed.

End AppendFacts.

(** ** Claim submission *)

Section SubmitFacts.
Context `{Digest} `{SignatureVerifier}.

Lemma gt_five_minutes ct mt :
  JS.gt (JS.sub (JS.Int ct) (JS.Int mt)) fiveMinutesInSeconds = (300 <? ct - mt).
Proof. reflexivity. Qed.

Lemma gt_five_minutes_NaN t :
  JS.gt (JS.sub t JS.NaN) fiveMinutesInSeconds = false.
Proof. by destruct t. Qed.

(** What the steps after the check of the elapsed time come to. *)
Lemma verify_and_append_rejected address message signature star now' self :
  verify message address signature = false →
  verify_and_append address message signature star now' self
  = (Rejected InvalidSignature, self).
Proof. intros Hv. unfold verify_and_append. by rewrite Hv. Qed.

Lemma verify_and_append_resolved address message signature star now' self :
  verify message address signature = true →
  reachable self →
  ∃ block,
    verify_and_append address message signature star now' self
    = (Resolved block,
       {| chain := chain self ++ [block];
          height := Z.of_nat (length (chain self)) |})
    ∧ BlockClass.body block = StarData address message star
    ∧ _addBlock (BlockClass.new (StarData address message star)) now' self
      = (Resolved block,
         {| chain := chain self ++ [block];
            height := Z.of_nat (length (chain self)) |}).
Proof.
  intros Hv Hr. unfold verify_and_append. rewrite Hv. simpl.
  rewrite (addBlock_cached _ now' self (reachable_cached _ Hr)).
  eexists. split_and!; reflexivity.
Qed.

Lemma verify_and_append_not_expired address message signature star now' self :
  fst (verify_and_append address message signature star now' self)
  ≠ Rejected ChallengeExpired.
Proof.
  unfold verify_and_append.
  destruct (verify message address signature); simpl; [|discriminate].
  by destruct (_addBlock _ _ _) as [[]].
Qed.

(** Whatever [submitStar] does, short of resolving, it leaves the object
    as it was. *)
Lemma submitStar_unresolved address message signature star now now' self :
  (∃ block, fst (submitStar address message signature star now now' self)
            = Resolved block)
  ∨ snd (submitStar address message signature star now now' self) = self.
Proof.
  unfold submitStar, verify_and_append.
  destruct (JS.gt _ _); [by right|].
  destruct (verify message address signature); simpl; [|by right].
  unfold _addBlock.
  destruct (if height self =? -1 then _ else _); simpl; eauto.
Qed.

Lemma reachable_submitStar address message signature star now now' self r self' :
  reachable self →
  submitStar address message signature star now now' self = (r, self') →
  reachable self'.
Proof.
  intros Hr. unfold submitStar, verify_and_append.
  destruct (JS.gt _ _); [by intros [= _ <-]|].
  destruct (verify message address signature); simpl; [|by intros [= _ <-]].
  destruct (_addBlock _ _ _) as [r0 s0] eqn:Hadd.
  assert (reachable s0) by (by econstructor).
  by destruct r0; intros [= _ <-].
Qed.

(** With a timestamp in the message and the clock past its first second,
    [submitStar] compares whole seconds. *)
Lemma submitStar_seconds address message signature star now now' self mt :
  1000 ≤ now →
  messageTime message = JS.Int mt →
  submitStar address message signature star now now' self
  = if 300 <? now / 1000 - mt then (Rejected ChallengeExpired, self)
    else verify_and_append address message signature star now' self.
Proof.
  intros Hnow Hmt. unfold submitStar.
  by rewrite currentTime_seconds, Hmt, gt_five_minutes.
Qed.

(** C3. The check of the elapsed time is a strict window of 300 seconds on
    the seconds of the clock minus the timestamp of the message: beyond 300
    the call is rejected as expired and the object is as before; at 300
    exactly, and below, the call goes on to the verification of the
    signature and is not rejected as expired. *)
Theorem freshness_window address message signature star now now' self mt :
  1000 ≤ now →
  messageTime message = JS.Int mt →
  (300 < now / 1000 - mt →
     submitStar address message signature star now now' self
     = (Rejected ChallengeExpired, self))
  ∧ (now / 1000 - mt = 300 →
     submitStar address message signature star now now' self
     = verify_and_append address message signature star now' self)
  ∧ (now / 1000 - mt ≤ 300 →
     submitStar address message signature star now now' self
     = verify_and_append address message signature star now' self
     ∧ fst (submitStar address message signature star now now' self)
       ≠ Rejected ChallengeExpired).
Proof.
  intros Hnow Hmt.
  rewrite (submitStar_seconds _ _ _ _ _ _ _ mt) by done.
  split_and!; intros Hel.
  - by destruct (Z.ltb_spec 300 (now / 1000 - mt)); [|lia].
  - by destruct (Z.ltb_spec 300 (now / 1000 - mt)); [lia|].
  - destruct (Z.ltb_spec 300 (now / 1000 - mt)); [lia|].
    split; [done|]. apply verify_and_append_not_expired.
Qed.

(** C4, as the class has it.  A message without a timestamp in its second
    field makes the elapsed time [NaN]; the check of the elapsed time lets
    the call through, and the verifier alone decides: a rejected signature
    fails the call, an accepted one appends the block. *)
Theorem malformed_challenge_goes_to_verifier
    address message signature star now now' self :
  messageTime message = JS.NaN →
  submitStar address message signature star now now' self
  = verify_and_append address message signature star now' self
  ∧ (verify message address signature = false →
     submitStar address message signature star now now' self
     = (Rejected InvalidSignature, self))
  ∧ (verify message address signature = true → reachable self →
     ∃ block,
       submitStar address message signature star now now' self
       = (Resolved block,
          {| chain := chain self ++ [block];
             height := Z.of_nat (length (chain self)) |})
       ∧ BlockClass.body block = StarData address message star).
Proof.
  intros Hmt.
  assert (submitStar address message signature star now now' self
          = verify_and_append address message signature star now' self) as ->.
  { unfold submitStar. by rewrite Hmt, gt_five_minutes_NaN. }
  split_and!; [done|..].
  - apply verify_and_append_rejected.
  - intros Hv Hr.
    destruct (verify_and_append_resolved address message signature star now' self Hv Hr)
      as (block & ? & ? & _). eauto.
Qed.

(** C5. A call of [submitStar] that fails leaves the chain as it was: a
    timestamp 301 seconds old or more fails the call as expired, a
    signature the verifier rejects fails a call that has not expired as
    badly signed, and after any call that was rejected the object, its
    chain and the length of its chain are what they were. *)
Theorem failed_submit_leaves_chain address message signature star now now' self :
  (∀ mt, 1000 ≤ now → messageTime message = JS.Int mt →
         301 ≤ now / 1000 - mt →
         submitStar address message signature star now now' self
         = (Rejected ChallengeExpired, self))
  ∧ (JS.gt (JS.sub (currentTime now) (messageTime message)) fiveMinutesInSeconds
     = false →
     verify message address signature = false →
     submitStar address message signature star now now' self
     = (Rejected InvalidSignature, self))
  ∧ (∀ error self',
       submitStar address message signature star now now' self
       = (Rejected error, self') →
       (error = ChallengeExpired ∨ error = InvalidSignature)
       ∧ self' = self
       ∧ length (chain self') = length (chain self)).
Proof.
  split_and!.
  - intros mt Hnow Hmt Hel.
    rewrite (submitStar_seconds _ _ _ _ _ _ _ mt) by done.
    by destruct (Z.ltb_spec 300 (now / 1000 - mt)); [|lia].
  - intros Hgt Hv. unfold submitStar. rewrite Hgt.
    by apply verify_and_append_rejected.
  - intros error self'. unfold submitStar, verify_and_append.
    destruct (JS.gt _ _); [intros [= <- <-]; eauto|].
    destruct (verify message address signature); simpl; [|intros [= <- <-]; eauto].
    destruct (_addBlock _ _ _) as [[]]; discriminate.
Qed.

(** C10. A message whose timestamp lies ahead of the clock has a negative
    elapsed time; the call is not rejected as expired, it goes on to the
    verification of the signature, which alone decides. *)
Theorem future_challenge_not_expired
    address message signature star now now' self mt :
  1000 ≤ now →
  messageTime message = JS.Int mt →
  now / 1000 < mt →
  JS.sub (currentTime now) (messageTime message) = JS.Int (now / 1000 - mt)
  ∧ now / 1000 - mt < 0
  ∧ submitStar address message signature star now now' self
    = verify_and_append address message signature star now' self
  ∧ fst (submitStar address message signature star now now' self)
    ≠ Rejected ChallengeExpired
  ∧ (verify message address signature = false →
     submitStar address message signature star now now' self
     = (Rejected InvalidSignature, self))
  ∧ (verify message address signature = true → reachable self →
     ∃ block,
       submitStar address message signature star now now' self
       = (Resolved block,
          {| chain := chain self ++ [block];
             height := Z.of_nat (length (chain self)) |})).
Proof.
  intros Hnow Hmt Hfuture.
  rewrite (submitStar_seconds _ _ _ _ _ _ _ mt) by done.
  rewrite currentTime_seconds, Hmt by done.
  destruct (Z.ltb_spec 300 (now / 1000 - mt)); [lia|].
  split_and!; [done|lia|done|apply verify_and_append_not_expired|..].
  - apply verify_and_append_rejected.
  - intros Hv Hr.
    destruct (verify_and_append_resolved address message signature star now' self Hv Hr)
      as (block & ? & _). eauto.
Qed.

End SubmitFacts.

(** ** Height bookkeeping *)

Section HeightFacts.
Context `{Digest}.

Lemma constructor_genesis now :
  ∃ genesis,
    constructor now = {| chain := [genesis]; height := 0 |}
    ∧ BlockClass.body genesis = GenesisData "Genesis Block"
    ∧ _addBlock (BlockClass.new (GenesisData "Genesis Block")) now
        {| chain := []; height := -1 |}
      = (Resolved genesis, constructor now).
Proof. eexists. split_and!; reflexivity. Qed.

Lemma reachable_constructor now : reachable (constructor now).
Proof.
  destruct (constructor_genesis now) as (genesis & _ & _ & Hadd).
  eapply reachable_addBlock; [apply reachable_empty | exact Hadd].
Qed.

Lemma after_appends_reachable N self : after_appends N self → reachable self.
Proof.
  induction 1; [apply reachable_constructor | by econstructor].
Qed.

Lemma after_appends_length N self :
  after_appends N self → length (chain self) = S N.
Proof.
  induction 1 as [now|N self data now block self' Hprev IH Hadd].
  - reflexivity.
  - apply after_appends_reachable, reachable_cached in Hprev.
    rewrite (addBlock_cached data now self Hprev) in Hadd.
    injection Hadd as _ <-. simpl. rewrite length_app, IH. simpl. lia.
Qed.

(** C9. After genesis and [N] appends that resolved, [getChainHeight]
    resolves with [N], the chain holds [N + 1] blocks, the cached height is
    the length of the chain minus one, and a further append resolves and
    leads to the state after [N + 1] appends. *)
Theorem height_bookkeeping N self :
  after_appends N self →
  getChainHeight self = (Resolved (Z.of_nat N), self)
  ∧ length (chain self) = (N + 1)%nat
  ∧ height self = Z.of_nat (length (chain self)) - 1
  ∧ ∀ data now, ∃ block self',
      _addBlock (BlockClass.new data) now self = (Resolved block, self')
      ∧ after_appends (S N) self'.
Proof.
  intros HN.
  pose proof (after_appends_length N self HN) as Hlen.
  pose proof (reachable_cached self (after_appends_reachable N self HN)) as Hh.
  unfold height_cached in Hh. split_and!.
  - unfold getChainHeight. rewrite Hh, Hlen. do 2 f_equal. lia.
  - lia.
  - done.
  - intros data now. do 2 eexists. split.
    + by apply addBlock_cached.
    + eapply after_append; [exact HN | by apply addBlock_cached].
Qed.

End HeightFacts.

(** ** Queries *)

Section QueryFacts.

(** In a linked chain every block carries its index as height. *)
Lemma linked_height (c : list Block) (i : nat) b :
  linked c → c !! i = Some b → BlockClass.height b = Z.of_nat i.
Proof.
  intros [H0 HS] Hb. destruct i as [|i].
  - by destruct (H0 b Hb).
  - destruct (lookup_lt_is_Some_2 c i) as [p Hp].
    { apply lookup_lt_Some in Hb. lia. }
    apply (HS (S i) b p); [lia|done|]. by rewrite Nat.sub_1_r.
Qed.

(** Filtering by height a list whose blocks carry [k], [k + 1], ... *)
Lemma filter_height_from (k : nat) (c : list Block) (h : Z) :
  (∀ i b, c !! i = Some b → BlockClass.height b = Z.of_nat (k + i)) →
  filter (λ p, BlockClass.height p = h) c !! 0%nat
  = if decide (Z.of_nat k ≤ h) then c !! Z.to_nat (h - Z.of_nat k) else None.
Proof.
  revert k. induction c as [|b c IH]; intros k Hc.
  - by destruct (decide _).
  - assert (BlockClass.height b = Z.of_nat k) as Hb.
    { rewrite (Hc 0%nat b eq_refl). f_equal. lia. }
    rewrite filter_cons. destruct (decide (BlockClass.height b = h)) as [Heq|Hne].
    + rewrite decide_True by lia.
      replace (h - Z.of_nat k) with 0 by lia. done.
    + rewrite (IH (S k)).
      * destruct (decide (Z.of_nat k ≤ h)).
        -- rewrite decide_True by lia.
           replace (Z.to_nat (h - Z.of_nat k))
             with (S (Z.to_nat (h - Z.of_nat (S k)))) by lia. done.
        -- by rewrite decide_False by lia.
      * intros i b' Hb'. rewrite (Hc (S i) b' Hb'). f_equal. lia.
Qed.

Lemma getBlockByHeight_linked h self :
  linked (chain self) →
  getBlockByHeight h self = (Resolved (index (chain self) h), self).
Proof.
  intros Hl. unfold getBlockByHeight, index.
  rewrite (filter_height_from 0%nat (chain self) h).
  - rewrite Z.sub_0_r. destruct (Z.ltb_spec h 0).
    + by rewrite decide_False by lia.
    + rewrite decide_True by lia. by destruct (chain self !! Z.to_nat h).
  - intros i b Hb. by apply (linked_height (chain self)).
Qed.

(** C7. [getBlockByHash] resolves with the first block of the chain whose
    hash is the argument and is rejected as not found when the chain has
    none; [getBlockByHeight] never fails: it resolves with the block at
    the index when there is one, and with [null] when the height is out of
    range. *)
Theorem lookups_asymmetric `{Digest} self :
  reachable self →
  (∀ hash block,
     getBlockByHash hash self = (Resolved block, self)
     ↔ ∃ i, chain self !! i = Some block
            ∧ BlockClass.hash block = Some hash
            ∧ ∀ j b, chain self !! j = Some b → (j < i)%nat →
                     BlockClass.hash b ≠ Some hash)
  ∧ (∀ hash,
       getBlockByHash hash self = (Rejected NotFound, self)
       ↔ ∀ b, b ∈ chain self → BlockClass.hash b ≠ Some hash)
  ∧ (∀ hash, (∃ block, getBlockByHash hash self = (Resolved block, self))
             ∨ getBlockByHash hash self = (Rejected NotFound, self))
  ∧ (∀ h, getBlockByHeight h self = (Resolved (index (chain self) h), self))
  ∧ (∀ h, 0 ≤ h < Z.of_nat (length (chain self)) →
          ∃ block, chain self !! Z.to_nat h = Some block
                   ∧ getBlockByHeight h self = (Resolved (Some block), self))
  ∧ (∀ h, h < 0 ∨ Z.of_nat (length (chain self)) ≤ h →
          getBlockByHeight h self = (Resolved None, self)).
Proof.
  intros Hr. apply reachable_linked in Hr. split_and!.
  - intros hash block. unfold getBlockByHash.
    destruct (list_find _ _) as [[i b]|] eqn:Hfind; simpl.
    + apply list_find_Some in Hfind as (Hi & Hb & Hfirst). split.
      * intros [= <-]. eauto.
      * intros (i' & Hi' & Hb' & Hfirst').
        destruct (Nat.lt_trichotomy i i') as [Hlt|[->|Hgt]].
        -- by destruct (Hfirst' i b).
        -- congruence.
        -- by destruct (Hfirst i' block).
    + split; [discriminate|]. intros (i & Hi & Hb & _).
      apply list_find_None in Hfind. rewrite Forall_forall in Hfind.
      destruct (Hfind block); [|done]. by eapply list_elem_of_lookup_2.
  - intros hash. unfold getBlockByHash.
    destruct (list_find _ _) as [[i b]|] eqn:Hfind; simpl.
    + apply list_find_Some in Hfind as (Hi & Hb & _). split; [discriminate|].
      intros Hnone. destruct (Hnone b); [|done]. by eapply list_elem_of_lookup_2.
    + apply list_find_None in Hfind. rewrite Forall_forall in Hfind. done.
  - intros hash. unfold getBlockByHash.
    destruct (list_find _ _) as [[i b]|]; simpl; eauto.
  - intros h. by apply getBlockByHeight_linked.
  - intros h Hh. rewrite getBlockByHeight_linked by done. unfold index.
    destruct (Z.ltb_spec h 0); [lia|].
    destruct (lookup_lt_is_Some_2 (chain self) (Z.to_nat h)) as [block Hb]; [lia|].
    rewrite Hb. eauto.
  - intros h Hh. rewrite getBlockByHeight_linked by done. unfold index.
    destruct (Z.ltb_spec h 0); [done|].
    rewrite lookup_ge_None_2 by lia. done.
Qed.

End QueryFacts.

Section StarFacts.

Lemma stars_of_cons address b c :
  stars_of address (b :: c)
  = match BlockClass.body b with
    | StarData a _ star =>
        if String.eqb a address then star :: stars_of address c
        else stars_of address c
    | GenesisData _ => stars_of address c
    end.
Proof.
  unfold stars_of. rewrite filter_cons.
  destruct (decide _) as [Ha|Ha]; cbn [omap list_omap];
    destruct (BlockClass.body b) as [data|a m star]; simpl in *;
    try discriminate; try done.
  - injection Ha as ->. by rewrite String.eqb_refl.
  - destruct (String.eqb_spec a address) as [->|Hne]; done.
Qed.

Lemma stars_of_none address c :
  (∀ b, b ∈ c → BlockClass.address_of (BlockClass.body b) ≠ Some address) →
  stars_of address c = [].
Proof.
  induction c as [|b c IH]; intros Hnone; [done|].
  rewrite stars_of_cons, IH by (intros b' Hb'; apply Hnone; by right).
  pose proof (Hnone b ltac:(by left)) as Hb.
  destruct (BlockClass.body b) as [data|a m star]; [done|].
  destruct (String.eqb_spec a address) as [->|Hne]; done.
Qed.

Lemma stars_loop_spec address c stars :
  stars_loop address c stars
  = match mapM JSON.parse (stars_of address c) with
    | Some decoded => inr (stars ++ decoded)%list
    | None => inl SyntaxError
    end.
Proof.
  revert stars. induction c as [|b c IH]; intros stars.
  - simpl. by rewrite app_nil_r.
  - rewrite stars_of_cons. cbn [stars_loop].
    destruct (BlockClass.body b) as [data|a m star]; [apply IH|].
    destruct (String.eqb a address); [|apply IH].
    cbn [mapM]. destruct (JSON.parse star) as [v|]; simpl; [|done].
    rewrite IH. destruct (mapM JSON.parse (stars_of address c)); simpl; [|done].
    by rewrite <- app_assoc.
Qed.

(** C8, as the class has it.  [getStarsByWalletAddress] goes through the
    stars of the blocks whose body carries the address, in the order of the
    chain, blocks without an address left out: it resolves with their
    decoded payloads when every one of them decodes, and is rejected with
    the error of the decoder when one does not.  For an address without a
    claim it resolves with the empty list. *)
Theorem stars_by_address address self :
  getStarsByWalletAddress address self
  = (match mapM JSON.parse (stars_of address (chain self)) with
     | Some decoded => Resolved decoded
     | None => Rejected SyntaxError
     end, self)
  ∧ (Forall (λ star, is_Some (JSON.parse star)) (stars_of address (chain self)) →
     ∃ decoded,
       getStarsByWalletAddress address self = (Resolved decoded, self)
       ∧ Forall2 (λ star v, JSON.parse star = Some v)
           (stars_of address (chain self)) decoded)
  ∧ (Exists (λ star, JSON.parse star = None) (stars_of address (chain self)) →
     getStarsByWalletAddress address self = (Rejected SyntaxError, self))
  ∧ ((∀ b, b ∈ chain self →
           BlockClass.address_of (BlockClass.body b) ≠ Some address) →
     getStarsByWalletAddress address self = (Resolved [], self)).
Proof.
  assert (getStarsByWalletAddress address self
          = (match mapM JSON.parse (stars_of address (chain self)) with
             | Some decoded => Resolved decoded
             | None => Rejected SyntaxError
             end, self)) as Hget.
  { unfold getStarsByWalletAddress. rewrite stars_loop_spec.
    by destruct (mapM _ _). }
  rewrite Hget. split_and!; [done|..].
  - intros Hall.
    destruct (mapM JSON.parse (stars_of address (chain self))) as [decoded|] eqn:Hm.
    + exists decoded. split; [done|]. by apply mapM_Some_1.
    + apply mapM_None in Hm. apply Exists_exists in Hm as (star & Hin & Hnone).
      rewrite Forall_forall in Hall. destruct (Hall star Hin) as [v Hv]. congruence.
  - intros Hex.
    destruct (mapM JSON.parse (stars_of address (chain self))) as [decoded|] eqn:Hm;
      [|done].
    apply mapM_Some_1 in Hm. apply Exists_exists in Hex as (star & Hin & Hnone).
    apply list_elem_of_lookup in Hin as [i Hi].
    destruct (Forall2_lookup_l _ _ _ _ _ Hm Hi) as (v & _ & Hv). congruence.
  - intros Hnone.
    by rewrite stars_of_none.
Qed.

End StarFacts.

(** ** Chain validation *)

Section EntryFacts.

Lemma toString_of_nat (i : nat) :
  JS.toString (Z.of_nat i) = JS.string_of_digits_le (JS.digits (N.of_nat i)).
Proof. destruct i as [|i]; reflexivity. Qed.

Lemma digits_nonempty n : JS.digits n ≠ [].
Proof. apply digits_le_nonempty. Qed.

Lemma digits_digit n : Forall (λ d, (d < 10)%N) (JS.digits n).
Proof. apply digits_le_digit. Qed.

Lemma skip_digits_app ds t :
  Forall (λ d, (d < 10)%N) ds →
  skip_digits (string_of_list_ascii (map JS.digit_char ds) +:+ t) = skip_digits t.
Proof.
  induction 1 as [|d ds Hd _ IH]; [done|].
  cbn [map string_of_list_ascii]. rewrite append_cons. cbn [skip_digits].
  by rewrite digit_value_digit_char.
Qed.

Lemma entry_height_block i : entry_height (invalid_block_entry i) = Some (N.of_nat i).
Proof.
  unfold entry_height, invalid_block_entry. rewrite toString_of_nat.
  change (string_drop 16 (?a +:+ ?b +:+ ?c)) with (b +:+ c).
  rewrite read_digits_of_digits by (apply digits_nonempty || apply digits_digit).
  by rewrite digits_value.
Qed.

Lemma entry_height_link i : entry_height (invalid_link_entry i) = Some (N.of_nat i).
Proof.
  unfold entry_height, invalid_link_entry. rewrite toString_of_nat.
  change (string_drop 16 (?a +:+ ?b +:+ ?c)) with (b +:+ c).
  rewrite read_digits_of_digits by (apply digits_nonempty || apply digits_digit).
  by rewrite digits_value.
Qed.

Lemma entry_rest_block i : entry_rest (invalid_block_entry i) = " is invalid.".
Proof.
  unfold entry_rest, invalid_block_entry. rewrite toString_of_nat.
  change (string_drop 16 (?a +:+ ?b +:+ ?c)) with (b +:+ c).
  unfold JS.string_of_digits_le.
  by rewrite skip_digits_app by (apply Forall_rev, digits_digit).
Qed.

Lemma entry_rest_link i :
  entry_rest (invalid_link_entry i) = " has an invalid previousBlockHash.".
Proof.
  unfold entry_rest, invalid_link_entry. rewrite toString_of_nat.
  change (string_drop 16 (?a +:+ ?b +:+ ?c)) with (b +:+ c).
  unfold JS.string_of_digits_le.
  by rewrite skip_digits_app by (apply Forall_rev, digits_digit).
Qed.

Lemma invalid_block_entry_inj i j :
  invalid_block_entry i = invalid_block_entry j → i = j.
Proof.
  intros Heq. apply (f_equal entry_height) in Heq.
  rewrite !entry_height_block in Heq. injection Heq. lia.
Qed.

Lemma invalid_link_entry_inj i j :
  invalid_link_entry i = invalid_link_entry j → i = j.
Proof.
  intros Heq. apply (f_equal entry_height) in Heq.
  rewrite !entry_height_link in Heq. injection Heq. lia.
Qed.

Lemma entries_distinct i j : invalid_block_entry i ≠ invalid_link_entry j.
Proof.
  intros Heq. apply (f_equal entry_rest) in Heq.
  rewrite entry_rest_block, entry_rest_link in Heq. discriminate.
Qed.

End EntryFacts.

Section ValidateFacts.
Context `{BlockValidator}.

(** One turn of the loop adds what is to be reported at its index. *)
Lemma validate_loop_step (c : list Block) steps i errorLog block :
  c !! i = Some block →
  validate_loop c (S steps) i errorLog
  = validate_loop c steps (S i) (errorLog ++ problems_at c i).
Proof.
  intros Hb. cbn [validate_loop]. unfold problems_at. rewrite Hb. f_equal.
  destruct i as [|i].
  - simpl. destruct (validate block); simpl; by rewrite ?app_nil_r.
  - rewrite bool_decide_true by lia. rewrite andb_true_l.
    destruct (lookup_lt_is_Some_2 c (S i - 1)) as [p Hp].
    { apply lookup_lt_Some in Hb. lia. }
    rewrite Hp. cbn [fmap option_fmap option_map].
    destruct (decide (BlockClass.previousBlockHash block = BlockClass.hash p))
      as [Heq|Hne].
    + rewrite bool_decide_true by congruence.
      destruct (validate block); simpl; by rewrite ?app_nil_r.
    + rewrite bool_decide_false by congruence.
      destruct (validate block); simpl; by rewrite <- ?app_assoc.
Qed.

Lemma validate_loop_spec (c : list Block) steps i errorLog :
  (i + steps ≤ length c)%nat →
  validate_loop c steps i errorLog
  = errorLog ++ flat_map (problems_at c) (seq i steps).
Proof.
  revert i errorLog. induction steps as [|steps IH]; intros i errorLog Hle.
  - simpl. by rewrite app_nil_r.
  - destruct (lookup_lt_is_Some_2 c i) as [block Hb]; [lia|].
    rewrite (validate_loop_step c steps i errorLog block Hb).
    rewrite IH by lia. cbn [seq flat_map]. by rewrite <- app_assoc.
Qed.

Lemma elem_of_problems (c : list Block) entry :
  entry ∈ problems c ↔ ∃ i, (i < length c)%nat ∧ entry ∈ problems_at c i.
Proof.
  unfold problems. rewrite list_elem_of_In, in_flat_map. split.
  - intros (i & Hi & Hin). apply in_seq in Hi. exists i.
    rewrite list_elem_of_In. split; [lia|done].
  - intros (i & Hi & Hin). exists i. rewrite in_seq, <- list_elem_of_In.
    split; [lia|done].
Qed.

Lemma elem_of_problems_at (c : list Block) i entry :
  entry ∈ problems_at c i
  ↔ (entry = invalid_block_entry i ∧ block_invalid c i)
    ∨ (entry = invalid_link_entry i ∧ link_invalid c i).
Proof.
  unfold problems_at, block_invalid, link_invalid.
  destruct (c !! i) as [b|] eqn:Hb.
  - rewrite elem_of_app. f_equiv.
    + destruct (validate b) eqn:Hv.
      * split; [by intros ?%elem_of_nil|]. intros (_ & b' & [= <-] & ?). congruence.
      * rewrite list_elem_of_singleton. split; [eauto|tauto].
    + destruct i as [|i].
      * split; [by intros ?%elem_of_nil|]. intros (_ & ? & _). lia.
      * destruct (c !! (S i - 1)%nat) as [p|] eqn:Hp.
        -- destruct (decide _) as [Heq|Hne].
           ++ split; [by intros ?%elem_of_nil|].
              intros (_ & _ & b' & p' & [= <-] & [= <-] & ?). done.
           ++ rewrite list_elem_of_singleton. split; [|tauto].
              intros ->. split_and!; [done|lia|eauto].
        -- split; [by intros ?%elem_of_nil|].
           intros (_ & _ & b' & p' & _ & ? & _). done.
  - split; [by intros ?%elem_of_nil|].
    intros [(_ & b & ? & _)|(_ & _ & b & p & ? & _)]; done.
Qed.

Lemma validateChain_problems self :
  validateChain self = (Resolved (problems (chain self)), self).
Proof. unfold validateChain. by rewrite validate_loop_spec. Qed.

Lemma block_entry_reported (c : list Block) i :
  invalid_block_entry i ∈ problems c ↔ block_invalid c i.
Proof.
  rewrite elem_of_problems. split.
  - intros (j & _ & [[Heq Hj]|[Heq _]]%elem_of_problems_at).
    + by apply invalid_block_entry_inj in Heq as ->.
    + by apply entries_distinct in Heq.
  - intros Hi. exists i. split.
    + destruct Hi as (b & Hb & _). by apply lookup_lt_Some in Hb.
    + apply elem_of_problems_at. by left.
Qed.

Lemma link_entry_reported (c : list Block) i :
  invalid_link_entry i ∈ problems c ↔ link_invalid c i.
Proof.
  rewrite elem_of_problems. split.
  - intros (j & _ & [[Heq _]|[Heq Hj]]%elem_of_problems_at).
    + symmetry in Heq. by apply entries_distinct in Heq.
    + by apply invalid_link_entry_inj in Heq as ->.
  - intros Hi. exists i. split.
    + destruct Hi as (_ & b & _ & Hb & _). by apply lookup_lt_Some in Hb.
    + apply elem_of_problems_at. by right.
Qed.

Lemma problems_nil (c : list Block) :
  problems c = [] ↔ ∀ i, ¬ block_invalid c i ∧ ¬ link_invalid c i.
Proof.
  split.
  - intros Hnil i. rewrite <- block_entry_reported, <- link_entry_reported, Hnil.
    split; by intros ?%elem_of_nil.
  - intros Hok. destruct (problems c) as [|entry log] eqn:Hlog; [done|].
    assert (entry ∈ problems c) as Hin by (rewrite Hlog; by left).
    apply elem_of_problems in Hin as (i & _ & Hin).
    apply elem_of_problems_at in Hin. destruct (Hok i). tauto.
Qed.

(** C6. [validateChain] resolves, leaves the object as it was, and its log
    holds, index after index from 0 to the end of the chain, what is to be
    reported there: the entry of an invalid block for each block that fails
    its own check, and the entry of an invalid link, a different text, for
    each index above 0 whose previous hash is not the hash of the block
    before; a block with both faults has both entries, one after the other,
    and the log is empty exactly when no block has a fault. *)
Theorem validateChain_reports self :
  validateChain self = (Resolved (problems (chain self)), self)
  ∧ (∀ i, invalid_block_entry i ∈ problems (chain self)
          ↔ block_invalid (chain self) i)
  ∧ (∀ i, invalid_link_entry i ∈ problems (chain self)
          ↔ link_invalid (chain self) i)
  ∧ (∀ i j, invalid_block_entry i ≠ invalid_link_entry j)
  ∧ (∀ i, block_invalid (chain self) i → link_invalid (chain self) i →
          problems_at (chain self) i
          = [invalid_block_entry i; invalid_link_entry i])
  ∧ (problems (chain self) = []
     ↔ ∀ i, ¬ block_invalid (chain self) i ∧ ¬ link_invalid (chain self) i).
Proof.
  split_and!.
  - apply validateChain_problems.
  - apply block_entry_reported.
  - apply link_entry_reported.
  - apply entries_distinct.
  - intros i (b & Hb & Hv) (Hi & b' & p & Hb' & Hp & Hne).
    unfold problems_at. rewrite Hb, Hv. destruct i as [|i]; [lia|].
    rewrite Hp. rewrite Hb in Hb'. injection Hb' as <-.
    by rewrite decide_False.
  - apply problems_nil.
Qed.

End ValidateFacts.

Section Untouched.
Context `{Digest}.

(** With the validator of the specification, the chain of an object that
    only the class has written to has nothing to report. *)
Lemma validateChain_reachable self :
  reachable self →
  @validateChain recomputing_validator self = (Resolved [], self).
Proof.
  intros Hr.
  rewrite (@validateChain_problems recomputing_validator).
  rewrite (proj2 (@problems_nil recomputing_validator _)); [done|].
  intros i. split.
  - intros (b & Hb & Hv). simpl in Hv.
    apply bool_decide_eq_false in Hv. apply Hv.
    pose proof (reachable_hashed self Hr) as Hall.
    rewrite Forall_forall in Hall. apply Hall. by eapply list_elem_of_lookup_2.
  - intros (Hi & b & p & Hb & Hp & Hne).
    destruct (reachable_linked self Hr) as [_ HS].
    by destruct (HS i b p).
Qed.

End Untouched.

(** ** The sample objects *)

Lemma fresh_unfolded : Demo.fresh = {| chain := [Demo.genesis]; height := 0 |}.
Proof. reflexivity. Qed.

Lemma withA_unfolded :
  Demo.withA = {| chain := [Demo.genesis; Demo.blockA]; height := 1 |}.
Proof. reflexivity. Qed.

Lemma withAB_unfolded :
  Demo.withAB
  = {| chain := [Demo.genesis; Demo.blockA; Demo.blockB]; height := 2 |}.
Proof. reflexivity. Qed.

Lemma fresh_reachable : @reachable Demo.digest Demo.fresh.
Proof.
  apply (@reachable_addBlock Demo.digest {| chain := []; height := -1 |}
           (GenesisData "Genesis Block") Demo.t0 (Resolved Demo.genesis)).
  - apply reachable_empty.
  - reflexivity.
Qed.

Lemma withA_reachable : @reachable Demo.digest Demo.withA.
Proof.
  apply (@reachable_addBlock Demo.digest Demo.fresh
           (StarData "A" Demo.messageA Demo.starA) 1700000100457
           (Resolved Demo.blockA)).
  - apply fresh_reachable.
  - reflexivity.
Qed.

Lemma withAB_reachable : @reachable Demo.digest Demo.withAB.
Proof.
  apply (@reachable_addBlock Demo.digest Demo.withA
           (StarData "B" Demo.messageB "Vega") 1700000250001
           (Resolved Demo.blockB)).
  - apply withA_reachable.
  - reflexivity.
Qed.


Lemma stored_hash_is_digest_witness :
  last (chain Demo.withA) = Some Demo.blockA
  ∧ BlockClass.hash Demo.blockA
    = Some (@SHA256 Demo.digest (@JSON_stringify Demo.digest
        {| BlockClass.hash := None; BlockClass.height := 1;
           BlockClass.body := StarData "A" Demo.messageA Demo.starA;
           BlockClass.time := "1700000100";
           BlockClass.previousBlockHash := Some "#2323711404" |})).
Proof.
  destruct (@stored_hash_is_digest Demo.digest Demo.fresh
              (StarData "A" Demo.messageA Demo.starA) 1700000100457
              Demo.blockA Demo.withA) as (Hlast & _ & Hhash & _).
  - apply fresh_reachable.
  - reflexivity.
  - split; [exact Hlast | exact Hhash].
Defined.

Lemma freshness_window_witness :
  @submitStar Demo.digest Demo.verifier "A" Demo.messageA
    ("sig/A/" +:+ Demo.messageA) Demo.starA 1700000301000 1700000301001 Demo.fresh
  = (Rejected ChallengeExpired, Demo.fresh)
  ∧ @submitStar Demo.digest Demo.verifier "A" Demo.messageA
      ("sig/A/" +:+ Demo.messageA) Demo.starA 1700000300999 1700000301001 Demo.fresh
    = @verify_and_append Demo.digest Demo.verifier "A" Demo.messageA
        ("sig/A/" +:+ Demo.messageA) Demo.starA 1700000301001 Demo.fresh.
Proof.
  split.
  - apply (@freshness_window Demo.digest Demo.verifier "A" Demo.messageA
             ("sig/A/" +:+ Demo.messageA) Demo.starA 1700000301000 1700000301001
             Demo.fresh 1700000000); [lia | reflexivity | reflexivity].
  - apply (@freshness_window Demo.digest Demo.verifier "A" Demo.messageA
             ("sig/A/" +:+ Demo.messageA) Demo.starA 1700000300999 1700000301001
             Demo.fresh 1700000000); [lia | reflexivity | reflexivity].
Defined.

(** C4 fails on the class: the message ["hello"] has no second field, the
    call is not rejected, and the chain has one block more. *)
Lemma malformed_challenge_accepted :
  JS.split ":" "hello" = ["hello"]
  ∧ messageTime "hello" = JS.NaN
  ∧ @submitStar Demo.digest Demo.verifier "A" "hello" "sig/A/hello" Demo.starA
      1700000100456 1700000100457 Demo.fresh
    = (Resolved Demo.blockHello,
       {| chain := [Demo.genesis; Demo.blockHello]; height := 1 |}).
Proof. split_and!; reflexivity. Qed.

Lemma malformed_challenge_goes_to_verifier_witness :
  @submitStar Demo.digest Demo.verifier "A" "hello" "forged" Demo.starA
    1700000100456 1700000100457 Demo.fresh
  = (Rejected InvalidSignature, Demo.fresh).
Proof.
  apply (@malformed_challenge_goes_to_verifier Demo.digest Demo.verifier
           "A" "hello" "forged" Demo.starA 1700000100456 1700000100457 Demo.fresh);
    reflexivity.
Defined.

Lemma failed_submit_leaves_chain_witness :
  @submitStar Demo.digest Demo.verifier "A" Demo.messageA "forged" Demo.starA
    1700000100456 1700000100457 Demo.withA
  = (Rejected InvalidSignature, Demo.withA)
  ∧ @submitStar Demo.digest Demo.verifier "A" Demo.messageA
      ("sig/A/" +:+ Demo.messageA) Demo.starA 1700000301000 1700000301001 Demo.withA
    = (Rejected ChallengeExpired, Demo.withA).
Proof.
  split.
  - apply (@failed_submit_leaves_chain Demo.digest Demo.verifier "A" Demo.messageA
             "forged" Demo.starA 1700000100456 1700000100457 Demo.withA);
      reflexivity.
  - apply (proj1 (@failed_submit_leaves_chain Demo.digest Demo.verifier "A"
                    Demo.messageA ("sig/A/" +:+ Demo.messageA) Demo.starA
                    1700000301000 1700000301001 Demo.withA) 1700000000);
      [lia | reflexivity | reflexivity].
Defined.

Lemma future_challenge_not_expired_witness :
  JS.sub (currentTime 1700000100456) (messageTime "A:1700009999:starRegistry")
  = JS.Int (-9899)
  ∧ @submitStar Demo.digest Demo.verifier "A" "A:1700009999:starRegistry" "forged"
      Demo.starA 1700000100456 1700000100457 Demo.fresh
    = (Rejected InvalidSignature, Demo.fresh).
Proof.
  destruct (@future_challenge_not_expired Demo.digest Demo.verifier "A"
              "A:1700009999:starRegistry" "forged" Demo.starA
              1700000100456 1700000100457 Demo.fresh 1700009999)
    as (Helapsed & _ & _ & _ & Hrejected & _).
  - lia.
  - reflexivity.
  - reflexivity.
  - split; [exact Helapsed | apply Hrejected; reflexivity].
Defined.

Lemma after_appends_withAB : @after_appends Demo.digest 2 Demo.withAB.
Proof.
  apply (@after_append Demo.digest 1 Demo.withA
           (StarData "B" Demo.messageB "Vega") 1700000250001 Demo.blockB).
  - apply (@after_append Demo.digest 0 Demo.fresh
             (StarData "A" Demo.messageA Demo.starA) 1700000100457 Demo.blockA).
    + apply (@after_genesis Demo.digest Demo.t0).
    + reflexivity.
  - reflexivity.
Qed.

Lemma height_bookkeeping_witness :
  getChainHeight Demo.withAB = (Resolved 2, Demo.withAB)
  ∧ length (chain Demo.withAB) = 3%nat.
Proof.
  destruct (@height_bookkeeping Demo.digest 2 Demo.withAB after_appends_withAB)
    as (Hheight & Hlength & _).
  split; [exact Hheight | exact Hlength].
Defined.

Lemma lookups_asymmetric_witness :
  getBlockByHeight 1 Demo.withAB = (Resolved (Some Demo.blockA), Demo.withAB)
  ∧ getBlockByHeight 3 Demo.withAB = (Resolved None, Demo.withAB)
  ∧ getBlockByHash "#1359336639" Demo.withAB = (Resolved Demo.blockA, Demo.withAB)
  ∧ getBlockByHash "#1" Demo.withAB = (Rejected NotFound, Demo.withAB).
Proof.
  destruct (@lookups_asymmetric Demo.digest Demo.withAB withAB_reachable)
    as (Hhash & Hnone & _ & Hheight & _ & _).
  split_and!.
  - apply Hheight.
  - apply Hheight.
  - apply Hhash. exists 1%nat. split_and!; [reflexivity..|].
    intros [|j] b Hb Hj; [|lia]. injection Hb as <-. discriminate.
  - apply Hnone. intros b Hb.
    rewrite withAB_unfolded in Hb. simpl in Hb.
    repeat (apply elem_of_cons in Hb as [->|Hb]; [discriminate|]).
    by apply elem_of_nil in Hb.
Defined.

(** C8 fails on the class: the star of [B] is no JSON text, and the call is
    rejected. *)
Lemma stars_of_undecodable_claim_rejected :
  stars_of "B" (chain Demo.withAB) = ["Vega"]
  ∧ JSON.parse "Vega" = None
  ∧ getStarsByWalletAddress "B" Demo.withAB = (Rejected SyntaxError, Demo.withAB).
Proof. split_and!; reflexivity. Qed.

Lemma stars_by_address_witness :
  getStarsByWalletAddress "A" Demo.withAB
  = (Resolved [JSON.Obj [("dec", JSON.Str "68 52 56.9");
                         ("ra", JSON.Str "16h 29m 1.0s")]], Demo.withAB)
  ∧ getStarsByWalletAddress "C" Demo.withAB = (Resolved [], Demo.withAB).
Proof.
  split.
  - apply (stars_by_address "A" Demo.withAB).
  - apply (stars_by_address "C" Demo.withAB).
    intros b Hb. rewrite withAB_unfolded in Hb. simpl in Hb.
    repeat (apply elem_of_cons in Hb as [->|Hb]; [discriminate|]).
    by apply elem_of_nil in Hb.
Defined.

Lemma validateChain_reports_witness :
  @validateChain Demo.validator Demo.tampered
  = (Resolved ["Block at height 1 is invalid.";
               "Block at height 1 has an invalid previousBlockHash."],
     Demo.tampered)
  ∧ @validateChain Demo.validator Demo.withAB = (Resolved [], Demo.withAB).
Proof.
  split.
  - rewrite (proj1 (@validateChain_reports Demo.validator Demo.tampered)).
    reflexivity.
  - rewrite (proj1 (@validateChain_reports Demo.validator Demo.withAB)).
    reflexivity.
Defined.

(** * Further properties of the class *)

(** ** The seconds of the clock *)

Section ClockFacts.
Local Open Scope N_scope.

(** Fuel beyond what the number needs does not change its digits. *)
Lemma digits_le_fuel fuel1 fuel2 n :
  n < 2 ^ N.of_nat fuel1 → n < 2 ^ N.of_nat fuel2 →
  (0 < fuel1)%nat → (0 < fuel2)%nat →
  JS.digits_le fuel1 n = JS.digits_le fuel2 n.
Proof.
  revert fuel2 n. induction fuel1 as [|fuel1 IH]; intros fuel2 n H1 H2 Hf1 Hf2.
  - lia.
  - destruct fuel2 as [|fuel2]; [lia|].
    cbn [JS.digits_le]. destruct (N.ltb_spec n 10) as [Hlt|Hge]; [done|].
    f_equal. rewrite Nat2N.inj_succ, N.pow_succ_r' in H1, H2.
    assert (n / 10 < 2 ^ N.of_nat fuel1)
      by (apply N.Div0.div_lt_upper_bound; lia).
    assert (n / 10 < 2 ^ N.of_nat fuel2)
      by (apply N.Div0.div_lt_upper_bound; lia).
    assert (1 ≤ n / 10) by (apply N.div_le_lower_bound; lia).
    apply IH; [done|done|..].
    + destruct fuel1; [simpl in *; lia|lia].
    + destruct fuel2; [simpl in *; lia|lia].
Qed.

Lemma digits_le_digits fuel n :
  n < 2 ^ N.of_nat fuel → (0 < fuel)%nat → JS.digits_le fuel n = JS.digits n.
Proof.
  intros Hn Hfuel. unfold JS.digits.
  destruct (decide (n = 0)) as [->|Hpos].
  - destruct fuel; [lia|done].
  - apply digits_le_fuel; [done| |done|lia].
    rewrite Nat2N.inj_succ, N2Nat.id. apply N.log2_spec. lia.
Qed.

Lemma toString_of_N (n : N) :
  JS.toString (Z.of_N n) = JS.string_of_digits_le (JS.digits n).
Proof. by destruct n. Qed.

(** From one second after the epoch on, the text the class makes of the
    clock is the decimal numeral of the whole seconds. *)
Lemma timestamp_seconds (now : Z) :
  (1000 ≤ now)%Z → timestamp now = JS.toString (now / 1000)%Z.
Proof.
  intros Hnow.
  rewrite <- (Z2N.id now) at 1 by lia.
  assert (1000 ≤ Z.to_N now) as Hn by lia.
  rewrite timestamp_digits by lia. unfold JS.digits at 1.
  assert (9 ≤ N.log2 (Z.to_N now)) as Hlog.
  { change 9 with (N.log2 1000). by apply N.log2_le_mono. }
  destruct (N.to_nat (N.log2 (Z.to_N now))) as [|[|fuel]] eqn:Hfuel; [lia..|].
  rewrite digits_le_skip3 by done.
  rewrite digits_le_digits.
  - rewrite <- toString_of_N. f_equal.
    rewrite N2Z.inj_div, Z2N.id by lia. done.
  - apply N.Div0.div_lt_upper_bound.
    pose proof (N.log2_spec (Z.to_N now) ltac:(lia)) as [_ Hup].
    replace (N.succ (N.log2 (Z.to_N now))) with (N.of_nat fuel + 3) in Hup by lia.
    rewrite N.pow_add_r in Hup. lia.
  - lia.
Qed.

End ClockFacts.

(** ** Challenges *)

Section ChallengeFacts.

Lemma string_snoc_append (l : list ascii) (c : ascii) (s : string) :
  string_of_list_ascii (l ++ [c]) +:+ s = string_of_list_ascii l +:+ String c s.
Proof.
  induction l as [|a l IH]; [done|].
  cbn [app string_of_list_ascii]. by rewrite !append_cons, IH.
Qed.

(** A text without the separator is one field. *)
Lemma split_go_one sep cur s :
  contains_char sep s = false →
  JS.split_go sep cur s = [string_of_list_ascii (rev cur) +:+ s].
Proof.
  revert cur. induction s as [|c s IH]; intros cur Hs.
  - cbn [JS.split_go]. by rewrite append_empty.
  - cbn [contains_char] in Hs. apply orb_false_elim in Hs as [Hc Hs].
    cbn [JS.split_go]. rewrite Hc, IH by done.
    cbn [rev]. by rewrite string_snoc_append.
Qed.

(** The first separator ends the first field. *)
Lemma split_go_cut sep cur a x :
  contains_char sep a = false →
  JS.split_go sep cur (a +:+ String sep x)
  = (string_of_list_ascii (rev cur) +:+ a) :: JS.split_go sep [] x.
Proof.
  revert cur. induction a as [|c a IH]; intros cur Ha.
  - change (EmptyString +:+ String sep x) with (String sep x).
    cbn [JS.split_go]. by rewrite Ascii.eqb_refl, append_empty.
  - cbn [contains_char] in Ha. apply orb_false_elim in Ha as [Hc Ha].
    rewrite append_cons. cbn [JS.split_go]. rewrite Hc, IH by done.
    cbn [rev]. by rewrite string_snoc_append.
Qed.

Lemma split_cut sep a x :
  contains_char sep a = false →
  JS.split sep (a +:+ String sep x) = a :: JS.split sep x.
Proof. intros Ha. unfold JS.split. by rewrite split_go_cut. Qed.

Lemma split_one sep s :
  contains_char sep s = false → JS.split sep s = [s].
Proof. intros Hs. unfold JS.split. by rewrite split_go_one. Qed.

Lemma digits_no_colon ds :
  Forall (λ d, (d < 10)%N) ds →
  contains_char ":" (string_of_list_ascii (map JS.digit_char ds)) = false.
Proof.
  induction 1 as [|d ds Hd _ IH]; [done|].
  cbn [map string_of_list_ascii contains_char].
  rewrite digit_char_not by (done || (simpl; lia)). done.
Qed.

(** A numeral holds no colon. *)
Lemma toString_no_colon (n : Z) : 0 ≤ n → contains_char ":" (JS.toString n) = false.
Proof.
  intros Hn. rewrite <- (Z2N.id n) by done. rewrite toString_of_N.
  apply digits_no_colon, Forall_rev, digits_digit.
Qed.

Lemma parseInt_toString (n : Z) : 0 ≤ n → JS.parseInt_string (JS.toString n) = JS.Int n.
Proof.
  intros Hn. rewrite <- (Z2N.id n) at 1 by done. rewrite toString_of_N.
  rewrite parseInt_of_digits by (apply digits_nonempty || apply digits_digit).
  rewrite digits_value. f_equal. lia.
Qed.


Lemma challenge_fields (address : string) (now : Z) :
  contains_char ":" address = false →
  1000 ≤ now →
  JS.split ":" (address +:+ ":" +:+ timestamp now +:+ ":starRegistry")
  = [address; JS.toString (now / 1000); "starRegistry"].
Proof.
  intros Ha Hnow.
  assert (0 ≤ now / 1000) by (apply Z.div_pos; lia).
  rewrite timestamp_seconds by done.
  change (address +:+ ":" +:+ JS.toString (now / 1000) +:+ ":starRegistry")
    with (address +:+ String ":"
            (JS.toString (now / 1000) +:+ String ":" "starRegistry")).
  rewrite (split_cut ":" address) by done.
  rewrite (split_cut ":" (JS.toString (now / 1000)))
    by (by apply toString_no_colon).
  by rewrite split_one.
Qed.

Lemma challenge_messageTime (address : string) (now : Z) :
  contains_char ":" address = false →
  1000 ≤ now →
  messageTime (address +:+ ":" +:+ timestamp now +:+ ":starRegistry")
  = JS.Int (now / 1000).
Proof.
  intros Ha Hnow. unfold messageTime. rewrite challenge_fields by done.
  cbn [lookup list_lookup JS.parseInt].
  apply parseInt_toString, Z.div_pos; lia.
Qed.

(** X2. The challenge issued for an address without a colon has the three
    fields address, seconds of the clock and [starRegistry], and the
    timestamp read back from it is the second at which it was issued. *)
Theorem challenge_round_trip (address : string) (now : Z) :
  contains_char ":" address = false →
  1000 ≤ now →
  ∃ message,
    requestMessageOwnershipVerification address now = Resolved message
    ∧ JS.split ":" message = [address; JS.toString (now / 1000); "starRegistry"]
    ∧ messageTime message = JS.Int (now / 1000).
Proof.
  intros Ha Hnow. eexists. split; [reflexivity|]. split.
  - by apply challenge_fields.
  - by apply challenge_messageTime.
Qed.

Lemma append_assoc (a b c : string) : (a +:+ b) +:+ c = a +:+ (b +:+ c).
Proof. induction a as [|x a IH]; [done|]. by rewrite !append_cons, IH. Qed.

(** X3. When the address holds a colon, the second field of the challenge is
    a piece of the address: what is read back as the timestamp is
    [parseInt] of that piece, and the seconds of the clock are not looked
    at. *)
Theorem challenge_of_colon_address (a b : string) (now : Z) :
  contains_char ":" a = false →
  contains_char ":" b = false →
  1000 ≤ now →
  ∃ message,
    requestMessageOwnershipVerification (a +:+ ":" +:+ b) now = Resolved message
    ∧ JS.split ":" message
      = [a; b; JS.toString (now / 1000); "starRegistry"]
    ∧ messageTime message = JS.parseInt_string b.
Proof.
  intros Ha Hb Hnow. eexists. split; [reflexivity|].
  assert (0 ≤ now / 1000) by (apply Z.div_pos; lia).
  rewrite timestamp_seconds by done. unfold messageTime.
  rewrite append_assoc.
  change (a +:+ (":" +:+ b) +:+ ":" +:+ JS.toString (now / 1000) +:+ ":starRegistry")
    with (a +:+ String ":" (b +:+ String ":"
            (JS.toString (now / 1000) +:+ String ":" "starRegistry"))).
  rewrite (split_cut ":" a) by done.
  rewrite (split_cut ":" b) by done.
  rewrite (split_cut ":" (JS.toString (now / 1000)))
    by (by apply toString_no_colon).
  rewrite split_one by done. done.
Qed.

End ChallengeFacts.

(** ** Submission, composed with the other operations *)

Section SubmitCompose.
Context `{Digest} `{SignatureVerifier}.

(** X4. A challenge issued for an address without a colon is good for 300
    seconds of the clock: submitted later than that it is rejected as
    expired, submitted up to then it goes on to the verifier. *)
Theorem issued_challenge_window address signature star issued now now' self message :
  contains_char ":" address = false →
  1000 ≤ issued → 1000 ≤ now →
  requestMessageOwnershipVerification address issued = Resolved message →
  (300 < now / 1000 - issued / 1000 →
   submitStar address message signature star now now' self
   = (Rejected ChallengeExpired, self))
  ∧ (now / 1000 - issued / 1000 ≤ 300 →
     submitStar address message signature star now now' self
     = verify_and_append address message signature star now' self).
Proof.
  intros Ha Hissued Hnow [= <-].
  rewrite (submitStar_seconds _ _ _ _ _ _ _ (issued / 1000))
    by (done || by apply challenge_messageTime).
  split; intros Hel.
  - by destruct (Z.ltb_spec 300 (now / 1000 - issued / 1000)); [|lia].
  - by destruct (Z.ltb_spec 300 (now / 1000 - issued / 1000)); [lia|].
Qed.

(** What [_addBlock] does to an object, whatever the object and the block. *)
Lemma addBlock_cases block now self :
  _addBlock block now self = (Rejected TypeError, self)
  ∨ ∃ b, _addBlock block now self
         = (Resolved b, {| chain := chain self ++ [b]; height := height self + 1 |})
         ∧ BlockClass.body b = BlockClass.body block
         ∧ BlockClass.time b = timestamp now
         ∧ BlockClass.height b = height self + 1.
Proof.
  unfold _addBlock.
  destruct (if height self =? -1 then _ else _) as [previous|]; [|by left].
  right. eexists. split_and!; reflexivity.
Qed.

(** X5. The chain only grows at its end: each of [_addBlock], [submitStar]
    and [initializeChain] leaves the object as it was, or resolves and
    leaves the chain with one block more after the blocks it had, the
    cached height one higher. *)
Theorem chain_append_only self :
  (∀ block now r self',
     _addBlock block now self = (r, self') →
     (r = Rejected TypeError ∧ self' = self)
     ∨ ∃ b, r = Resolved b ∧ chain self' = chain self ++ [b]
            ∧ height self' = height self + 1)
  ∧ (∀ address message signature star now now' r self',
       submitStar address message signature star now now' self = (r, self') →
       self' = self
       ∨ ∃ b, r = Resolved b ∧ chain self' = chain self ++ [b]
              ∧ height self' = height self + 1)
  ∧ (∀ now r self',
       initializeChain now self = (r, self') →
       r = Resolved tt
       ∧ (self' = self
          ∨ ∃ b, chain self' = chain self ++ [b] ∧ height self' = height self + 1)).
Proof.
  split_and!.
  - intros block now r self' Hadd.
    destruct (addBlock_cases block now self) as [Hrej|(b & Hres & _)];
      rewrite Hadd in *; simplify_eq; eauto 10.
  - intros address message signature star now now' r self'.
    unfold submitStar, verify_and_append.
    destruct (JS.gt _ _); [intros [= _ <-]; by left|].
    destruct (verify message address signature); simpl; [|intros [= _ <-]; by left].
    destruct (addBlock_cases (BlockClass.new (StarData address message star))
                now' self) as [->|(b & -> & _)];
      intros [= <- <-]; eauto 10.
  - intros now r self'. unfold initializeChain.
    destruct (Z.eqb_spec (height self) (-1)) as [Hh|Hh]; [|intros [= <- <-]; eauto].
    destruct (addBlock_cases (BlockClass.new (GenesisData "Genesis Block"))
                now self) as [Hrej|(b & -> & _)].
    + unfold _addBlock in Hrej. rewrite Hh in Hrej. discriminate.
    + intros [= <- <-]. eauto 10.
Qed.


(** X7. The block a call of [submitStar] resolves with holds what was
    submitted, the next height and the hash of the block that was last; from
    then on [getChainHeight] gives its height and [getBlockByHeight] at that
    height gives the block. *)
Theorem submitted_block_stored address message signature star now now' self block self' :
  reachable self →
  submitStar address message signature star now now' self = (Resolved block, self') →
  BlockClass.body block = StarData address message star
  ∧ BlockClass.height block = height self + 1
  ∧ BlockClass.previousBlockHash block = last (chain self) ≫= BlockClass.hash
  ∧ chain self' = chain self ++ [block]
  ∧ getChainHeight self' = (Resolved (height self + 1), self')
  ∧ getBlockByHeight (height self + 1) self' = (Resolved (Some block), self').
Proof.
  intros Hr Hsub.
  assert (reachable self') as Hr' by (by eapply reachable_submitStar).
  pose proof (reachable_cached _ Hr) as Hh.
  unfold submitStar, verify_and_append in Hsub.
  destruct (JS.gt _ _); [discriminate|].
  destruct (verify message address signature); simpl in Hsub; [|discriminate].
  rewrite (addBlock_cached _ now' self Hh) in Hsub.
  injection Hsub as <- <-.
  unfold height_cached in Hh. cbn [BlockClass.body BlockClass.height
    BlockClass.previousBlockHash chain]. split_and!; try done.
  - lia.
  - unfold getChainHeight. cbn [height]. do 2 f_equal. lia.
  - rewrite getBlockByHeight_linked by (by apply reachable_linked).
    unfold index. cbn [chain]. rewrite Hh.
    replace (Z.of_nat (length (chain self)) - 1 + 1)
      with (Z.of_nat (length (chain self))) by lia.
    destruct (Z.ltb_spec (Z.of_nat (length (chain self))) 0); [lia|].
    rewrite Nat2Z.id, lookup_app_r, Nat.sub_diag by lia. done.
Qed.

(** X8. Once the clock is past its first second, the block [_addBlock]
    resolves with carries as time the decimal numeral of the whole seconds
    of the clock, which [parseInt] reads back. *)
Theorem block_time_is_seconds block now self b self' :
  1000 ≤ now →
  _addBlock block now self = (Resolved b, self') →
  BlockClass.time b = JS.toString (now / 1000)
  ∧ JS.parseInt (Some (BlockClass.time b)) = JS.Int (now / 1000).
Proof.
  intros Hnow Hadd.
  destruct (addBlock_cases block now self) as [Hrej|(b' & Hres & _ & Htime & _)];
    rewrite Hadd in *; [discriminate|].
  injection Hres as <- _. rewrite Htime, timestamp_seconds by done.
  split; [done|]. apply parseInt_toString, Z.div_pos; lia.
Qed.

(** X9. A message without any colon has no second field: the timestamp read
    from it is [NaN], nothing is rejected as expired whatever the clock
    shows, and the call goes on to the verifier. *)
Theorem colonless_message_skips_check address message signature star now now' self :
  contains_char ":" message = false →
  JS.split ":" message = [message]
  ∧ messageTime message = JS.NaN
  ∧ submitStar address message signature star now now' self
    = verify_and_append address message signature star now' self.
Proof.
  intros Hm.
  assert (messageTime message = JS.NaN) as Hnan.
  { unfold messageTime. by rewrite split_one. }
  split_and!; [by apply split_one | done |].
  unfold submitStar. by rewrite Hnan, gt_five_minutes_NaN.
Qed.

End SubmitCompose.

(** ** Queries, composed with the other operations *)

Section QueryCompose.

(** X10. When no hash occurs twice in the chain, [getBlockByHash] on the hash
    of the block at an index resolves with that very block. *)
Theorem getBlockByHash_round_trip self (k : nat) block hash :
  NoDup (BlockClass.hash <$> chain self) →
  chain self !! k = Some block →
  BlockClass.hash block = Some hash →
  getBlockByHash hash self = (Resolved block, self).
Proof.
  intros Hnodup Hk Hhash. unfold getBlockByHash.
  destruct (list_find _ _) as [[i b]|] eqn:Hfind; simpl.
  - apply list_find_Some in Hfind as (Hi & Hb & _).
    assert (i = k) as ->; [|congruence].
    apply (NoDup_lookup _ i k (Some hash) Hnodup);
      rewrite list_lookup_fmap; [by rewrite Hi, <- Hb | by rewrite Hk, <- Hhash].
  - apply list_find_None in Hfind. rewrite Forall_forall in Hfind.
    destruct (Hfind block); [by eapply list_elem_of_lookup_2 | done].
Qed.




End QueryCompose.

Section StarsCompose.
Context `{Digest} `{SignatureVerifier}.


End StarsCompose.

(** ** Validation of the chains the class builds, and of tampered ones *)

Section ValidateCompose.
Context `{Digest} `{BlockValidator}.

(** X12. On an object that only the class has written to, [validateChain]
    never reports a previous hash: its log holds the entries of the blocks
    that fail their own check, and nothing else. *)
Theorem validateChain_links_intact self :
  reachable self →
  ∃ log,
    validateChain self = (Resolved log, self)
    ∧ (∀ i, invalid_link_entry i ∉ log)
    ∧ (∀ entry, entry ∈ log
                ↔ ∃ i, entry = invalid_block_entry i ∧ block_invalid (chain self) i).
Proof.
  intros Hr. exists (problems (chain self)).
  assert (∀ i, ¬ link_invalid (chain self) i) as Hlinks.
  { intros i (Hi & b & p & Hb & Hp & Hne).
    destruct (reachable_linked self Hr) as [_ HS]. by destruct (HS i b p). }
  split_and!.
  - apply validateChain_problems.
  - intros i Hin. apply link_entry_reported in Hin. by apply (Hlinks i).
  - intros entry. rewrite elem_of_problems. split.
    + intros (i & _ & Hin). apply elem_of_problems_at in Hin as [[-> Hi]|[_ Hi]].
      * eauto.
      * by destruct (Hlinks i).
    + intros (i & -> & Hi). exists i. split.
      * destruct Hi as (b & Hb & _). by apply lookup_lt_Some in Hb.
      * apply elem_of_problems_at. by left.
Qed.

(** X13. Tampering with a block of a chain the class built shows in the log:
    a block put in place of the one at index [k] with another hash makes
    [validateChain] report the previous hash of the block at [k + 1], and
    one with another previous hash, at an index above 0, makes it report the
    previous hash at [k]. *)
Theorem tampering_reported self (k : nat) original replaced :
  reachable self →
  chain self !! k = Some original →
  let tampered := {| chain := <[k := replaced]> (chain self); height := height self |} in
  ∃ log,
    validateChain tampered = (Resolved log, tampered)
    ∧ (BlockClass.hash replaced ≠ BlockClass.hash original →
       (S k < length (chain self))%nat →
       invalid_link_entry (S k) ∈ log)
    ∧ (BlockClass.previousBlockHash replaced
       ≠ BlockClass.previousBlockHash original →
       (0 < k)%nat →
       invalid_link_entry k ∈ log).
Proof.
  intros Hr Hk tampered. exists (problems (chain tampered)).
  destruct (reachable_linked self Hr) as [_ HS].
  pose proof (lookup_lt_Some _ _ _ Hk) as Hlt.
  split_and!.
  - apply validateChain_problems.
  - intros Hne Hnext. apply link_entry_reported. split; [lia|].
    destruct (lookup_lt_is_Some_2 (chain self) (S k) Hnext) as [next Hnext'].
    exists next, replaced. cbn [chain tampered]. split_and!.
    + by rewrite list_lookup_insert_ne by lia.
    + replace (S k - 1)%nat with k by lia. by rewrite list_lookup_insert_eq.
    + destruct (HS (S k) next original) as [Hprev _]; [lia|done|..].
      * by replace (S k - 1)%nat with k by lia.
      * congruence.
  - intros Hne Hpos. apply link_entry_reported. split; [done|].
    destruct (lookup_lt_is_Some_2 (chain self) (k - 1)) as [before Hbefore]; [lia|].
    exists replaced, before. cbn [chain tampered]. split_and!.
    + by rewrite list_lookup_insert_eq.
    + by rewrite list_lookup_insert_ne by lia.
    + destruct (HS k original before) as [Hprev _]; [done..|]. congruence.
Qed.

End ValidateCompose.

(** ** The genesis block *)

Section GenesisFacts.
Context `{Digest}.

(** X14. However many blocks have been appended since, the first block of
    the chain is the genesis block the constructor made, with its marker as
    body, height 0 and no previous hash, and [initializeChain] resolves and
    leaves the object as it is. *)
Theorem genesis_stays N self :
  after_appends N self →
  (∃ genesis,
     chain self !! 0%nat = Some genesis
     ∧ BlockClass.body genesis = GenesisData "Genesis Block"
     ∧ BlockClass.height genesis = 0
     ∧ BlockClass.previousBlockHash genesis = None)
  ∧ ∀ now, initializeChain now self = (Resolved tt, self).
Proof.
  intros HN. split.
  - induction HN as [now|N self data now block self' Hprev IH Hadd].
    + eexists. split_and!; reflexivity.
    + destruct IH as (genesis & Hg & Hfields). exists genesis. split; [|done].
      apply after_appends_reachable, reachable_cached in Hprev.
      rewrite (addBlock_cached data now self Hprev) in Hadd.
      injection Hadd as _ <-. cbn [chain]. by apply lookup_app_l_Some.
  - intros now. unfold initializeChain.
    pose proof (after_appends_length N self HN) as Hlen.
    pose proof (reachable_cached self (after_appends_reachable N self HN)) as Hh.
    unfold height_cached in Hh.
    destruct (Z.eqb_spec (height self) (-1)); [lia|done].
Qed.

(** X15. In a chain that only the class has written to, every block has a
    hash, and the first block is the only one without a previous hash. *)
Theorem only_first_block_unlinked self (i : nat) block :
  reachable self →
  chain self !! i = Some block →
  (∃ hash, BlockClass.hash block = Some hash)
  ∧ (BlockClass.previousBlockHash block = None ↔ i = 0%nat).
Proof.
  intros Hr Hi.
  pose proof (reachable_hashed self Hr) as Hall. rewrite Forall_lookup in Hall.
  destruct (reachable_linked self Hr) as [H0 HS]. split.
  - eexists. apply (Hall i block Hi).
  - split.
    + intros Hnone. destruct i as [|i]; [done|].
      destruct (lookup_lt_is_Some_2 (chain self) i) as [p Hp].
      { apply lookup_lt_Some in Hi. lia. }
      destruct (HS (S i) block p) as [Hprev _]; [lia|done|..].
      { by rewrite Nat.sub_1_r. }
      rewrite Hnone, (Hall i p Hp) in Hprev. discriminate.
    + intros ->. by destruct (H0 block Hi).
Qed.

End GenesisFacts.

(** ** These properties on the sample objects *)

Lemma block_time_is_seconds_witness :
  BlockClass.time Demo.blockA = JS.toString 1700000100
  ∧ JS.parseInt (Some (BlockClass.time Demo.blockA)) = JS.Int 1700000100.
Proof.
  apply (@block_time_is_seconds Demo.digest
           (BlockClass.new (StarData "A" Demo.messageA Demo.starA))
           1700000100457 Demo.fresh Demo.blockA Demo.withA);
    [lia | reflexivity].
Defined.


Lemma challenge_round_trip_witness :
  ∃ message,
    requestMessageOwnershipVerification "A" Demo.t0 = Resolved message
    ∧ JS.split ":" message = ["A"; JS.toString (Demo.t0 / 1000); "starRegistry"]
    ∧ messageTime message = JS.Int (Demo.t0 / 1000).
Proof. apply (challenge_round_trip "A" Demo.t0); [reflexivity | by vm_compute]. Defined.

Lemma challenge_of_colon_address_witness :
  ∃ message,
    requestMessageOwnershipVerification ("bc1" +:+ ":" +:+ "12") Demo.t0
    = Resolved message
    ∧ JS.split ":" message
      = ["bc1"; "12"; JS.toString (Demo.t0 / 1000); "starRegistry"]
    ∧ messageTime message = JS.parseInt_string "12".
Proof.
  apply (challenge_of_colon_address "bc1" "12" Demo.t0);
    [reflexivity | reflexivity | by vm_compute].
Defined.

Lemma issued_challenge_window_witness :
  @submitStar Demo.digest Demo.verifier "A" Demo.messageA "forged" Demo.starA
    1700000301000 1700000301001 Demo.fresh
  = (Rejected ChallengeExpired, Demo.fresh).
Proof.
  apply (@issued_challenge_window Demo.digest Demo.verifier "A" "forged" Demo.starA
           Demo.t0 1700000301000 1700000301001 Demo.fresh Demo.messageA);
    [reflexivity | by vm_compute | lia | reflexivity | by vm_compute].
Defined.

Lemma chain_append_only_witness :
  Demo.withA = Demo.fresh
  ∨ ∃ b, Resolved Demo.blockA = Resolved b
         ∧ chain Demo.withA = chain Demo.fresh ++ [b]
         ∧ height Demo.withA = height Demo.fresh + 1.
Proof.
  apply (proj1 (proj2 (@chain_append_only Demo.digest Demo.verifier Demo.fresh))
           "A" Demo.messageA ("sig/A/" +:+ Demo.messageA) Demo.starA
           1700000100456 1700000100457).
  reflexivity.
Defined.


Lemma colonless_message_skips_check_witness :
  JS.split ":" "hello" = ["hello"]
  ∧ messageTime "hello" = JS.NaN
  ∧ @submitStar Demo.digest Demo.verifier "A" "hello" "sig/A/hello" Demo.starA
      1900000000000 1900000000001 Demo.fresh
    = @verify_and_append Demo.digest Demo.verifier "A" "hello" "sig/A/hello"
        Demo.starA 1900000000001 Demo.fresh.
Proof.
  apply (@colonless_message_skips_check Demo.digest Demo.verifier "A" "hello"
           "sig/A/hello" Demo.starA 1900000000000 1900000000001 Demo.fresh).
  reflexivity.
Defined.

Lemma submitted_block_stored_witness :
  BlockClass.body Demo.blockA = StarData "A" Demo.messageA Demo.starA
  ∧ BlockClass.height Demo.blockA = height Demo.fresh + 1
  ∧ BlockClass.previousBlockHash Demo.blockA
    = last (chain Demo.fresh) ≫= BlockClass.hash
  ∧ chain Demo.withA = chain Demo.fresh ++ [Demo.blockA]
  ∧ getChainHeight Demo.withA = (Resolved (height Demo.fresh + 1), Demo.withA)
  ∧ getBlockByHeight (height Demo.fresh + 1) Demo.withA
    = (Resolved (Some Demo.blockA), Demo.withA).
Proof.
  apply (@submitted_block_stored Demo.digest Demo.verifier "A" Demo.messageA
           ("sig/A/" +:+ Demo.messageA) Demo.starA 1700000100456 1700000100457
           Demo.fresh Demo.blockA Demo.withA);
    [apply fresh_reachable | reflexivity].
Defined.

Lemma getBlockByHash_round_trip_witness :
  getBlockByHash "#3039507665" Demo.withAB = (Resolved Demo.blockB, Demo.withAB).
Proof.
  apply (getBlockByHash_round_trip Demo.withAB 2 Demo.blockB "#3039507665");
    [|reflexivity..].
  change (NoDup [Some "#2323711404"; Some "#1359336639"; Some "#3039507665"]).
  repeat (apply NoDup_cons_2;
          [rewrite ?elem_of_cons, elem_of_nil; intuition discriminate|]).
  apply NoDup_nil_2.
Defined.


Lemma validateChain_links_intact_witness :
  ∃ log,
    @validateChain Demo.validator Demo.withAB = (Resolved log, Demo.withAB)
    ∧ (∀ i, invalid_link_entry i ∉ log)
    ∧ (∀ entry, entry ∈ log
                ↔ ∃ i, entry = invalid_block_entry i
                       ∧ @block_invalid Demo.validator (chain Demo.withAB) i).
Proof.
  apply (@validateChain_links_intact Demo.digest Demo.validator Demo.withAB).
  apply withAB_reachable.
Defined.

Lemma tampering_reported_witness :
  ∃ log,
    @validateChain Demo.validator Demo.tampered = (Resolved log, Demo.tampered)
    ∧ invalid_link_entry 1 ∈ log.
Proof.
  destruct (@tampering_reported Demo.digest Demo.validator Demo.withAB 1 Demo.blockA
              {| BlockClass.hash := Some "#1359336639"; BlockClass.height := 1;
                 BlockClass.body := StarData "M" Demo.messageA Demo.starA;
                 BlockClass.time := "1700000100";
                 BlockClass.previousBlockHash := Some "#0" |})
    as (log & Hlog & _ & Hprev).
  - apply withAB_reachable.
  - reflexivity.
  - exists log. split; [exact Hlog|]. apply Hprev; [discriminate | lia].
Defined.

Lemma genesis_stays_witness :
  (∃ genesis,
     chain Demo.withAB !! 0%nat = Some genesis
     ∧ BlockClass.body genesis = GenesisData "Genesis Block"
     ∧ BlockClass.height genesis = 0
     ∧ BlockClass.previousBlockHash genesis = None)
  ∧ ∀ now, @initializeChain Demo.digest now Demo.withAB = (Resolved tt, Demo.withAB).
Proof.
  apply (@genesis_stays Demo.digest 2 Demo.withAB). apply after_appends_withAB.
Defined.

Lemma only_first_block_unlinked_witness :
  (∃ hash, BlockClass.hash Demo.blockB = Some hash)
  ∧ (BlockClass.previousBlockHash Demo.blockB = None ↔ 2%nat = 0%nat).
Proof.
  apply (@only_first_block_unlinked Demo.digest Demo.withAB 2 Demo.blockB);
    [apply withAB_reachable | reflexivity].
Defined.
